(** * QUIC-style variable-length integers: [encoding/varint/varint.go]

    A shallow embedding of the package [varint] and the proofs of its
    specification.  A [uint64] is a [Z] in [[0, 2^64)] whose wrap-around is
    written out where the Go operation can overflow; a [byte] is the
    256-constructor type of the standard library, read as a number through
    [byte.unsigned] and truncated from a number through [byte.of_Z], which is
    Go's conversion [byte(x)].  A [[]byte] is a [list byte].  A Go [panic] is
    the constructor [Panic] of the result type [exec]; a returned [error] is
    an [option error] in the returned tuple, [None] being Go's [nil]. *)

From Stdlib Require Import ZArith List Lia Bool String.
From coqutil Require Import Byte.
Import ListNotations.
Local Open Scope Z_scope.

(** ** Machine arithmetic *)

Module U64.

Definition width : Z := 64.

(** Truncation of an integer to 64 bits. *)
Definition wrap (z : Z) : Z := z mod 2 ^ width.

(** [x << k] on [uint64]: the bits shifted out are lost. *)
Definition shl (x k : Z) : Z := wrap (Z.shiftl x k).

(** [x >> k] on [uint64]. *)
Definition shr (x k : Z) : Z := Z.shiftr x k.

(** [uint64(b)] for a byte [b]. *)
Definition of_byte (b : byte) : Z := byte.unsigned b.

End U64.

Module U8.

(** [a | b] on bytes. *)
Definition or (a b : byte) : byte :=
  byte.of_Z (Z.lor (byte.unsigned a) (byte.unsigned b)).

(** [a & b] on bytes. *)
Definition and (a b : byte) : byte :=
  byte.of_Z (Z.land (byte.unsigned a) (byte.unsigned b)).

(** [a >> k] on bytes. *)
Definition shr (a : byte) (k : Z) : byte :=
  byte.of_Z (Z.shiftr (byte.unsigned a) k).

End U8.

(** ** Errors and panics *)

(** The [error] values the package returns or passes on: the two sentinels of
    package [io] it names, and any other error of a caller-supplied reader
    or writer. *)
Inductive error : Type :=
| EOF
| ErrUnexpectedEOF
| ErrOther (msg : string).

(** What a [panic] carries: [&varintLengthError{Num: v}], the string
    ["unreachable"] of [Read], and the run-time panic of an index out of
    range. *)
Inductive panic : Type :=
| varintLengthError (Num : Z)
| unreachable
| indexOutOfRange.

(** The outcome of a call: it returns, or it panics. *)
Inductive exec (A : Type) : Type :=
| Ret (a : A)
| Panic (p : panic).
Arguments Ret {A} a.
Arguments Panic {A} p.

(** ** Constants *)

Definition Min : Z := 0.
Definition Max : Z := 0x3FFFFFFFFFFFFFFF.

Definition _maxVarInt1 : Z := 0x3F.
Definition _maxVarInt2 : Z := 0x3FFF.
Definition _maxVarInt4 : Z := 0x3FFFFFFF.
Definition _maxVarInt8 : Z := Max.

(** ** [Len] *)

Definition Len (v : Z) : exec Z :=
  if U64.shr v 6 =? 0 then Ret 1
  else if U64.shr v 14 =? 0 then Ret 2
  else if U64.shr v 30 =? 0 then Ret 4
  else if U64.shr v 62 =? 0 then Ret 8
  else Panic (varintLengthError v).

(** ** [Append] *)

(** The bytes each case of [Append] and [Write] computes, in order. *)
Definition enc1 (v : Z) : list byte :=
  [ byte.of_Z v ].

Definition enc2 (v : Z) : list byte :=
  [ U8.or (byte.of_Z (Z.land (U64.shr v 8) 0x3F)) Byte.x40;
    byte.of_Z v ].

Definition enc4 (v : Z) : list byte :=
  [ U8.or (byte.of_Z (Z.land (U64.shr v 24) 0x3F)) Byte.x80;
    byte.of_Z (U64.shr v 16);
    byte.of_Z (U64.shr v 8);
    byte.of_Z v ].

Definition enc8 (v : Z) : list byte :=
  [ U8.or (byte.of_Z (Z.land (U64.shr v 56) 0x3F)) Byte.xc0;
    byte.of_Z (U64.shr v 48);
    byte.of_Z (U64.shr v 40);
    byte.of_Z (U64.shr v 32);
    byte.of_Z (U64.shr v 24);
    byte.of_Z (U64.shr v 16);
    byte.of_Z (U64.shr v 8);
    byte.of_Z v ].

(** [append(dst, x1, ..., xn)] is [dst ++ [x1; ...; xn]]. *)
Definition Append (dst : list byte) (v : Z) : exec (list byte) :=
  if v <=? _maxVarInt1 then Ret (dst ++ enc1 v)
  else if v <=? _maxVarInt2 then Ret (dst ++ enc2 v)
  else if v <=? _maxVarInt4 then Ret (dst ++ enc4 v)
  else if v <=? _maxVarInt8 then Ret (dst ++ enc8 v)
  else Panic (varintLengthError v).

(** ** [Parse] and [Peek] *)

(** One turn of the loop body: [value = (value << 8) | uint64(b[i])]. *)
Definition shift_in (value : Z) (x : byte) : Z :=
  Z.lor (U64.shl value 8) (U64.of_byte x).

(** [for i := 1; i < length; i++ { ... }], entered at index [i] with [n]
    turns left ([n] is [length - i]).  Indexing [b[i]] outside the slice
    panics. *)
Fixpoint Parse_loop (n : nat) (b : list byte) (i : Z) (value : Z) : exec Z :=
  match n with
  | O => Ret value
  | S n' =>
      match nth_error b (Z.to_nat i) with
      | Some x => Parse_loop n' b (i + 1) (shift_in value x)
      | None => Panic indexOutOfRange
      end
  end.

(** The length a first byte declares: [1 << (first >> 6)]. *)
Definition declared (first : byte) : Z :=
  Z.shiftl 1 (byte.unsigned (U8.shr first 6)).

Definition Parse (b : list byte) : exec (Z * Z * option error) :=
  if Z.of_nat (List.length b) =? 0 then Ret (0, 0, Some EOF)
  else
    match nth_error b 0 with
    | None => Panic indexOutOfRange
    | Some first =>
        let length := declared first in
        if Z.of_nat (List.length b) <? length then Ret (0, 0, Some ErrUnexpectedEOF)
        else
          let value := U64.of_byte (U8.and first Byte.x3f) in
          match Parse_loop (Z.to_nat (length - 1)) b 1 value with
          | Ret value => Ret (value, length, None)
          | Panic p => Panic p
          end
    end.

Definition Peek (b : list byte) : exec (Z * option error) :=
  match Parse b with
  | Ret (v, _, err) => Ret (v, err)
  | Panic p => Panic p
  end.

(** ** Calls that thread a reader or a writer

    [Read] and [Write] call [ReadByte] and [WriteByte] one after the other and
    leave at the first error.  [io S A] is a computation over the state [S] of
    the reader or writer that yields an [A], leaves with an error, or
    panics. *)

Inductive res (A : Type) : Type :=
| Val (a : A)
| Err (e : error)
| Pan (p : panic).
Arguments Val {A} a.
Arguments Err {A} e.
Arguments Pan {A} p.

Definition io (S A : Type) : Type := S -> res A * S.

Definition ret {S A : Type} (a : A) : io S A := fun s => (Val a, s).

Definition raise {S A : Type} (p : panic) : io S A := fun s => (Pan p, s).

Definition bind {S A B : Type} (m : io S A) (k : A -> io S B) : io S B :=
  fun s =>
    match m s with
    | (Val a, s') => k a s'
    | (Err e, s') => (Err e, s')
    | (Pan p, s') => (Pan p, s')
    end.

Notation "x <- m ;; k" := (bind m (fun x => k))
  (at level 61, m at next level, right associativity).
Notation "m ;;; k" := (bind m (fun _ => k))
  (at level 61, right associativity).

(** [io.ByteReader]: [ReadByte() (byte, error)] on a reader in state [R]. *)
Class ByteReader (R : Type) : Type :=
  ReadByte : R -> (byte * option error) * R.

(** [io.ByteWriter]: [WriteByte(c byte) error] on a writer in state [W]. *)
Class ByteWriter (W : Type) : Type :=
  WriteByte : W -> byte -> option error * W.

(** [x, err := r.ReadByte(); if err != nil { return 0, err }]. *)
Definition readByte {R : Type} `{ByteReader R} : io R byte :=
  fun r =>
    match ReadByte r with
    | ((x, None), r') => (Val x, r')
    | ((_, Some e), r') => (Err e, r')
    end.

(** [if err := w.WriteByte(c); err != nil { return err }]. *)
Definition writeByte {W : Type} `{ByteWriter W} (c : byte) : io W unit :=
  fun w =>
    match WriteByte w c with
    | (None, w') => (Val tt, w')
    | (Some e, w') => (Err e, w')
    end.

(** ** [Read] *)

Section Read.
Context {R : Type} `{ByteReader R}.

Definition Read_io : io R Z :=
  b0 <- readByte ;;
  match byte.unsigned (U8.shr b0 6) with
  | 0 =>
      ret (U64.of_byte (U8.and b0 Byte.x3f))
  | 1 =>
      b1 <- readByte ;;
      ret (Z.lor (U64.shl (U64.of_byte (U8.and b0 Byte.x3f)) 8)
                 (U64.of_byte b1))
  | 2 =>
      b1 <- readByte ;;
      b2 <- readByte ;;
      b3 <- readByte ;;
      ret (Z.lor (Z.lor (Z.lor
             (U64.shl (U64.of_byte (U8.and b0 Byte.x3f)) 24)
             (U64.shl (U64.of_byte b1) 16))
             (U64.shl (U64.of_byte b2) 8))
             (U64.of_byte b3))
  | 3 =>
      b1 <- readByte ;;
      b2 <- readByte ;;
      b3 <- readByte ;;
      b4 <- readByte ;;
      b5 <- readByte ;;
      b6 <- readByte ;;
      b7 <- readByte ;;
      ret (Z.lor (Z.lor (Z.lor (Z.lor (Z.lor (Z.lor (Z.lor
             (U64.shl (U64.of_byte (U8.and b0 Byte.x3f)) 56)
             (U64.shl (U64.of_byte b1) 48))
             (U64.shl (U64.of_byte b2) 40))
             (U64.shl (U64.of_byte b3) 32))
             (U64.shl (U64.of_byte b4) 24))
             (U64.shl (U64.of_byte b5) 16))
             (U64.shl (U64.of_byte b6) 8))
             (U64.of_byte b7))
  | _ => raise unreachable
  end.

(** [Read] as the caller sees it: the pair [(uint64, error)], the value
    being [0] on every error return, and the reader it leaves behind. *)
Definition Read (r : R) : exec (Z * option error) * R :=
  match Read_io r with
  | (Val v, r') => (Ret (v, None), r')
  | (Err e, r') => (Ret (0, Some e), r')
  | (Pan p, r') => (Panic p, r')
  end.

End Read.

(** ** [Write] *)

Section Write.
Context {W : Type} `{ByteWriter W}.

Definition Write_io (v : Z) : io W unit :=
  if v <=? _maxVarInt1 then
    writeByte (byte.of_Z v)
  else if v <=? _maxVarInt2 then
    writeByte (U8.or (byte.of_Z (Z.land (U64.shr v 8) 0x3F)) Byte.x40) ;;;
    writeByte (byte.of_Z v)
  else if v <=? _maxVarInt4 then
    writeByte (U8.or (byte.of_Z (Z.land (U64.shr v 24) 0x3F)) Byte.x80) ;;;
    writeByte (byte.of_Z (U64.shr v 16)) ;;;
    writeByte (byte.of_Z (U64.shr v 8)) ;;;
    writeByte (byte.of_Z v)
  else if v <=? _maxVarInt8 then
    writeByte (U8.or (byte.of_Z (Z.land (U64.shr v 56) 0x3F)) Byte.xc0) ;;;
    writeByte (byte.of_Z (U64.shr v 48)) ;;;
    writeByte (byte.of_Z (U64.shr v 40)) ;;;
    writeByte (byte.of_Z (U64.shr v 32)) ;;;
    writeByte (byte.of_Z (U64.shr v 24)) ;;;
    writeByte (byte.of_Z (U64.shr v 16)) ;;;
    writeByte (byte.of_Z (U64.shr v 8)) ;;;
    writeByte (byte.of_Z v)
  else raise (varintLengthError v).

(** [Write] as the caller sees it: the returned [error], and the writer it
    leaves behind. *)
Definition Write (w : W) (v : Z) : exec (option error) * W :=
  match Write_io v w with
  | (Val _, w') => (Ret None, w')
  | (Err e, w') => (Ret (Some e), w')
  | (Pan p, w') => (Panic p, w')
  end.

End Write.

(** ** Readers and writers *)

(** A reader over a byte slice, as [bytes.NewReader] gives: it hands out the
    bytes in order and answers [io.EOF] once they are used up. *)
Definition sliceReader : Type := list byte.

#[export] Instance sliceReader_ByteReader : ByteReader sliceReader :=
  fun r =>
    match r with
    | [] => ((Byte.x00, Some EOF), [])
    | x :: r' => ((x, None), r')
    end.

(** A writer that keeps a log of every byte handed to the [WriteByte] of the
    writer it wraps, in call order. *)
Definition logged (W : Type) : Type := (W * list byte)%type.

#[export] Instance logged_ByteWriter {W : Type} `{ByteWriter W} : ByteWriter (logged W) :=
  fun '(w, log) c =>
    let '(e, w') := WriteByte w c in (e, (w', log ++ [c])).

(** A writer that accepts every byte, as [bytes.Buffer] does. *)
Definition buffer : Type := list byte.

#[export] Instance buffer_ByteWriter : ByteWriter buffer :=
  fun w c => (None, w ++ [c]).

(** A writer that accepts [n] bytes and fails on the next. *)
Definition limited : Type := nat.

#[export] Instance limited_ByteWriter : ByteWriter limited :=
  fun w _ =>
    match w with
    | O => (Some (ErrOther "short write"), O)
    | S n => (None, n)
    end.

(** ** Vocabulary of the specification

    The definitions below are not in the Go source: they name what the
    statements about it speak of. *)

(** The value the bytes after a first byte give it: its six low bits, then
    the next [declared first - 1] bytes shifted in, as the loop of [Parse]
    does. *)
Definition payload (first : byte) (rest : list byte) : Z :=
  fold_left shift_in (firstn (Z.to_nat (declared first - 1)) rest)
            (U64.of_byte (U8.and first Byte.x3f)).

(** The [n] low bytes of [v], most significant first, as the encoder
    computes them: [byte(v >> 8(n-1))], ..., [byte(v >> 8)], [byte(v)]. *)
Fixpoint be_bytes (n : nat) (v : Z) : list byte :=
  match n with
  | O => []
  | S n' => byte.of_Z (U64.shr v (8 * Z.of_nat n')) :: be_bytes n' v
  end.

(** Shifting a byte in, without the machine's truncation. *)
Definition shift_in_Z (value : Z) (x : byte) : Z := value * 256 + byte.unsigned x.

(** An encoding of [n] bytes carries [8n - 2] payload bits: the values it
    admits. *)
Definition admits (n v : Z) : Prop := v <= 2 ^ (8 * n - 2) - 1.

(** The lengths an encoding can have. *)
Definition lengths : list Z := [1; 2; 4; 8].

(** [n] calls of [ReadByte] in a row, up to the first error. *)
Fixpoint pull {R : Type} `{ByteReader R} (n : nat) : io R (list byte) :=
  match n with
  | O => ret []
  | S n' => x <- readByte ;; xs <- pull n' ;; ret (x :: xs)
  end.

(** Calls of [WriteByte] on the bytes of a list in order, up to the first
    error. *)
Fixpoint push {W : Type} `{ByteWriter W} (cs : list byte) : io W unit :=
  match cs with
  | [] => ret tt
  | c :: cs' => writeByte c ;;; push cs'
  end.

(** A writer that accepts every byte. *)
Definition accepts_all (W : Type) `{ByteWriter W} : Prop :=
  forall (w : W) (c : byte), fst (WriteByte w c) = None.

(** The lexicographic order on byte strings, bytes compared as numbers: a
    proper prefix is below, as for [bytes.Compare]. *)
Fixpoint lex_lt (xs ys : list byte) : Prop :=
  match xs, ys with
  | _, [] => False
  | [], _ :: _ => True
  | x :: xs', y :: ys' =>
      byte.unsigned x < byte.unsigned y \/ (x = y /\ lex_lt xs' ys')
  end.

(** ** Callers

    The only callers in the repository are the benchmarks.  They supply
    [discardByteWriter], and they call [Append], [Write] and [Read] over and
    over on one buffer, writer or reader; the loops below are those calls in
    a row, leaving at the first error. *)

(** [type discardByteWriter struct{}], whose [WriteByte] returns [nil]. *)
Inductive discardByteWriter : Type := discard.

#[export] Instance discardByteWriter_ByteWriter : ByteWriter discardByteWriter :=
  fun w _ => (None, w).

(** A reader that counts the calls of the [ReadByte] of the reader it
    wraps. *)
Definition counted (R : Type) : Type := (R * nat)%type.

#[export] Instance counted_ByteReader {R : Type} `{ByteReader R} : ByteReader (counted R) :=
  fun '(r, k) =>
    let '(res, r') := ReadByte r in (res, (r', S k)).

(** [for _, v := range vs { dst = Append(dst, v) }]. *)
Fixpoint AppendAll (dst : list byte) (vs : list Z) : exec (list byte) :=
  match vs with
  | [] => Ret dst
  | v :: vs' =>
      match Append dst v with
      | Ret dst' => AppendAll dst' vs'
      | Panic p => Panic p
      end
  end.

(** [for _, v := range vs { if err := Write(w, v); err != nil { return err } }]. *)
Fixpoint WriteAll {W : Type} `{ByteWriter W} (vs : list Z) : io W unit :=
  match vs with
  | [] => ret tt
  | v :: vs' => Write_io v ;;; WriteAll vs'
  end.

(** [n] calls of [Read] in a row, collecting the values. *)
Fixpoint ReadAll {R : Type} `{ByteReader R} (n : nat) : io R (list Z) :=
  match n with
  | O => ret []
  | S n' => v <- Read_io ;; vs <- ReadAll n' ;; ret (v :: vs)
  end.

(** * Proofs *)

(** ** The embedding runs *)

Example Len_ex : Len 16384 = Ret 4.
Proof. reflexivity. Qed.

Example Append_ex : Append [] 16384 = Ret [Byte.x80; Byte.x00; Byte.x40; Byte.x00].
Proof. vm_compute. reflexivity. Qed.

Example Parse_ex : Parse [Byte.x80; Byte.x00; Byte.x40; Byte.x00; Byte.xff] = Ret (16384, 4, None).
Proof. vm_compute. reflexivity. Qed.

Example Read_ex : Read [Byte.x80; Byte.x00; Byte.x40; Byte.x00; Byte.xff] = (Ret (16384, None), [Byte.xff]).
Proof. vm_compute. reflexivity. Qed.

Example Write_ex : Write ([] : buffer) 16384 = (Ret None, [Byte.x80; Byte.x00; Byte.x40; Byte.x00]).
Proof. vm_compute. reflexivity. Qed.

Example Write_short_ex :
  Write ((1%nat, []) : logged limited) 16384 =
  (Ret (Some (ErrOther "short write")), (0%nat, [Byte.x80; Byte.x00])).
Proof. vm_compute. reflexivity. Qed.

Example Peek_ex : Peek [Byte.x7f; Byte.xff] = Ret (16383, None).
Proof. vm_compute. reflexivity. Qed.

(** ** Bytes *)

Module ByteFacts.

Lemma unsigned_of_Z_small (z : Z) :
  0 <= z < 256 -> byte.unsigned (byte.of_Z z) = z.
Proof.
  intros Hz. rewrite byte.unsigned_of_Z. unfold byte.wrap.
  apply Z.mod_small. exact Hz.
Qed.

Lemma unsigned_of_Z_mod (z : Z) :
  byte.unsigned (byte.of_Z z) = z mod 256.
Proof. rewrite byte.unsigned_of_Z. reflexivity. Qed.

Lemma range (b : byte) : 0 <= byte.unsigned b < 256.
Proof. exact (byte.unsigned_range b). Qed.

(** The tag of a byte is its value divided by 64. *)
Lemma tag_div (b : byte) :
  byte.unsigned (U8.shr b 6) = byte.unsigned b / 64.
Proof. destruct b; reflexivity. Qed.

Lemma tag_range (b : byte) : 0 <= byte.unsigned (U8.shr b 6) < 4.
Proof.
  rewrite tag_div. pose proof (range b) as Hb.
  split; [apply Z.div_pos; lia | apply Z.div_lt_upper_bound; lia].
Qed.

(** Masking with [0x3f] keeps the value modulo 64. *)
Lemma low6_mod (b : byte) :
  byte.unsigned (U8.and b Byte.x3f) = byte.unsigned b mod 64.
Proof. destruct b; reflexivity. Qed.

Lemma low6_range (b : byte) : 0 <= byte.unsigned (U8.and b Byte.x3f) < 64.
Proof. rewrite low6_mod. apply Z.mod_pos_bound. lia. Qed.

(** Or-ing a tag on a six-bit byte sets the tag and keeps the six bits. *)
Lemma or_tag (p t : byte) (k : Z) :
  byte.unsigned p < 64 ->
  (t, k) = (Byte.x40, 1) \/ (t, k) = (Byte.x80, 2) \/ (t, k) = (Byte.xc0, 3) ->
  byte.unsigned (U8.shr (U8.or p t) 6) = k /\
  byte.unsigned (U8.and (U8.or p t) Byte.x3f) = byte.unsigned p.
Proof.
  intros Hp [E | [E | E]]; injection E as -> ->;
    destruct p; vm_compute in Hp; try discriminate Hp; split; reflexivity.
Qed.

(** A byte below 64 has tag 0 and is its own six low bits. *)
Lemma no_tag (p : byte) :
  byte.unsigned p < 64 ->
  byte.unsigned (U8.shr p 6) = 0 /\
  byte.unsigned (U8.and p Byte.x3f) = byte.unsigned p.
Proof.
  intros Hp. rewrite tag_div, low6_mod. pose proof (range p) as Hr.
  split; [apply Z.div_small | apply Z.mod_small]; lia.
Qed.

(** The top-six-bit byte the encoder builds, before the tag is set. *)
Lemma six_bits (x : Z) :
  0 <= x -> byte.unsigned (byte.of_Z (Z.land x 0x3F)) = x mod 64.
Proof.
  intros Hx. change 0x3F with (Z.ones 6). rewrite Z.land_ones by lia.
  change (2 ^ 6) with 64. apply unsigned_of_Z_small.
  pose proof (Z.mod_pos_bound x 64 ltac:(lia)). lia.
Qed.

End ByteFacts.

(** ** 64-bit arithmetic *)

Module U64Facts.

Lemma shr_div (x k : Z) : 0 <= k -> U64.shr x k = x / 2 ^ k.
Proof. intros Hk. unfold U64.shr. apply Z.shiftr_div_pow2. exact Hk. Qed.

Lemma shl_small (x k j : Z) :
  0 <= k -> 0 <= j -> j + k <= 64 -> 0 <= x < 2 ^ j ->
  U64.shl x k = x * 2 ^ k.
Proof.
  intros Hk Hj Hjk Hx. unfold U64.shl, U64.wrap, U64.width.
  rewrite Z.shiftl_mul_pow2 by exact Hk.
  apply Z.mod_small. split; [nia |].
  apply Z.lt_le_trans with (2 ^ j * 2 ^ k); [nia |].
  rewrite <- Z.pow_add_r by lia. apply Z.pow_le_mono_r; lia.
Qed.

(** Or-ing below a multiple of [2^k] is adding. *)
Lemma lor_add (h lo k : Z) :
  0 <= k -> 0 <= lo < 2 ^ k -> Z.lor (h * 2 ^ k) lo = h * 2 ^ k + lo.
Proof.
  intros Hk Hlo. rewrite <- (Z.add_lor_land (h * 2 ^ k) lo).
  enough (E : Z.land (h * 2 ^ k) lo = 0) by (rewrite E; lia).
  apply Z.bits_inj'. intros n Hn.
  rewrite Z.land_spec, Z.bits_0.
  destruct (Z.ltb_spec n k) as [Hlt | Hge].
  - rewrite Z.mul_pow2_bits_low by lia. reflexivity.
  - destruct (Z.eq_dec lo 0) as [-> | Hne].
    + rewrite Z.bits_0. apply andb_false_r.
    + rewrite (Z.bits_above_log2 lo n); [apply andb_false_r | lia |].
      apply Z.lt_le_trans with k; [| exact Hge].
      apply Z.log2_lt_pow2; lia.
Qed.

(** One turn of the decoding loop, arithmetically. *)
Lemma shift_in_add (value : Z) (x : byte) (j : Z) :
  0 <= j -> j + 8 <= 64 -> 0 <= value < 2 ^ j ->
  shift_in value x = value * 256 + byte.unsigned x.
Proof.
  intros Hj Hj8 Hv. unfold shift_in, U64.of_byte.
  rewrite (shl_small value 8 j) by lia.
  change (2 ^ 8) with 256.
  change 256 with (2 ^ 8) at 1. rewrite lor_add; [reflexivity | lia |].
  exact (byte.unsigned_range x).
Qed.

Lemma shift_in_range (value : Z) (x : byte) (j : Z) :
  0 <= j -> j + 8 <= 64 -> 0 <= value < 2 ^ j ->
  0 <= shift_in value x < 2 ^ (j + 8).
Proof.
  intros Hj Hj8 Hv. rewrite (shift_in_add value x j) by assumption.
  pose proof (byte.unsigned_range x) as Hx. change (2 ^ 8) with 256 in Hx.
  rewrite Z.pow_add_r by lia. change (2 ^ 8) with 256. nia.
Qed.

(** Shifting in a run of bytes keeps the value below [2^(j + 8 * length)]. *)
Lemma fold_shift_in_range (xs : list byte) : forall (value j : Z),
  0 <= j -> j + 8 * Z.of_nat (List.length xs) <= 64 -> 0 <= value < 2 ^ j ->
  0 <= fold_left shift_in xs value < 2 ^ (j + 8 * Z.of_nat (List.length xs)).
Proof.
  induction xs as [| x xs IH]; intros value j Hj Hlen Hv.
  - simpl. rewrite Z.add_0_r. exact Hv.
  - cbn [fold_left]. cbn [List.length] in *. rewrite Nat2Z.inj_succ in *.
    replace (j + 8 * Z.succ (Z.of_nat (List.length xs)))
      with ((j + 8) + 8 * Z.of_nat (List.length xs)) by lia.
    apply IH; [lia | lia |].
    apply shift_in_range; lia.
Qed.

End U64Facts.

(** ** The decoding loop *)

Module ParseFacts.

Lemma skipn_nth_error {A : Type} (b : list A) : forall (i : nat) (x : A),
  nth_error b i = Some x -> skipn i b = x :: skipn (S i) b.
Proof.
  induction b as [| y b IH]; intros [| i] x Hx; simpl in Hx; try discriminate.
  - injection Hx as ->. reflexivity.
  - exact (IH i x Hx).
Qed.

(** With the [n] bytes from index [i] on in the slice, the loop does not
    panic and shifts them in from left to right. *)
Lemma Parse_loop_fold (n : nat) : forall (b : list byte) (i : nat) (value : Z),
  (i + n <= List.length b)%nat ->
  Parse_loop n b (Z.of_nat i) value =
  Ret (fold_left shift_in (firstn n (skipn i b)) value).
Proof.
  induction n as [| n IH]; intros b i value Hlen.
  - reflexivity.
  - cbn [Parse_loop]. rewrite Nat2Z.id.
    destruct (nth_error b i) as [x |] eqn:Hx.
    + rewrite (skipn_nth_error b i x Hx). cbn [firstn fold_left].
      replace (Z.of_nat i + 1) with (Z.of_nat (S i)) by lia.
      apply IH. lia.
    + apply nth_error_None in Hx. lia.
Qed.

(** The declared length is two to the tag. *)
Lemma declared_cases (first : byte) :
  (byte.unsigned (U8.shr first 6) = 0 /\ declared first = 1) \/
  (byte.unsigned (U8.shr first 6) = 1 /\ declared first = 2) \/
  (byte.unsigned (U8.shr first 6) = 2 /\ declared first = 4) \/
  (byte.unsigned (U8.shr first 6) = 3 /\ declared first = 8).
Proof.
  unfold declared. pose proof (ByteFacts.tag_range first) as Ht.
  assert (E : byte.unsigned (U8.shr first 6) = 0 \/
              byte.unsigned (U8.shr first 6) = 1 \/
              byte.unsigned (U8.shr first 6) = 2 \/
              byte.unsigned (U8.shr first 6) = 3) by lia.
  destruct E as [E | [E | [E | E]]]; rewrite E; auto 6.
Qed.

Lemma declared_range (first : byte) : 1 <= declared first <= 8.
Proof.
  destruct (declared_cases first) as [[_ E] | [[_ E] | [[_ E] | [_ E]]]]; lia.
Qed.

Lemma Parse_nil : Parse [] = Ret (0, 0, Some EOF).
Proof. reflexivity. Qed.

Lemma Parse_short (first : byte) (rest : list byte) :
  Z.of_nat (List.length (first :: rest)) < declared first ->
  Parse (first :: rest) = Ret (0, 0, Some ErrUnexpectedEOF).
Proof.
  intros Hlen. unfold Parse.
  destruct (Z.eqb_spec (Z.of_nat (List.length (first :: rest))) 0) as [E | _].
  - simpl in E. lia.
  - cbn [nth_error]. cbv zeta.
    destruct (Z.ltb_spec (Z.of_nat (List.length (first :: rest))) (declared first));
      [reflexivity | lia].
Qed.

Lemma Parse_enough (first : byte) (rest : list byte) :
  declared first <= Z.of_nat (List.length (first :: rest)) ->
  Parse (first :: rest) = Ret (payload first rest, declared first, None).
Proof.
  intros Hlen. unfold Parse.
  destruct (Z.eqb_spec (Z.of_nat (List.length (first :: rest))) 0) as [E | _].
  - simpl in E. lia.
  - cbn [nth_error]. cbv zeta.
    destruct (Z.ltb_spec (Z.of_nat (List.length (first :: rest))) (declared first));
      [lia |].
    change 1 with (Z.of_nat 1) at 2.
    rewrite Parse_loop_fold; [reflexivity |].
    cbn [List.length] in *. pose proof (declared_range first). lia.
Qed.

(** The payload is a 62-bit number. *)
Lemma payload_range (first : byte) (rest : list byte) :
  0 <= payload first rest <= Max.
Proof.
  unfold payload.
  set (xs := firstn (Z.to_nat (declared first - 1)) rest).
  assert (Hxs : Z.of_nat (List.length xs) <= 7).
  { unfold xs. rewrite length_firstn. pose proof (declared_range first). lia. }
  pose proof (U64Facts.fold_shift_in_range xs
                (U64.of_byte (U8.and first Byte.x3f)) 6
                ltac:(lia) ltac:(lia) (ByteFacts.low6_range first)) as Hr.
  assert (Hp : 2 ^ (6 + 8 * Z.of_nat (List.length xs)) <= 2 ^ 62)
    by (apply Z.pow_le_mono_r; lia).
  change (2 ^ 62) with (Max + 1) in Hp. lia.
Qed.

End ParseFacts.

(** ** The encoder's bytes *)

Module EncFacts.

Lemma be_bytes_length (n : nat) (v : Z) : List.length (be_bytes n v) = n.
Proof. induction n as [| n IH]; simpl; congruence. Qed.

Lemma enc2_be (v : Z) : tl (enc2 v) = be_bytes 1 v.
Proof. reflexivity. Qed.

Lemma enc4_be (v : Z) : tl (enc4 v) = be_bytes 3 v.
Proof. reflexivity. Qed.

Lemma enc8_be (v : Z) : tl (enc8 v) = be_bytes 7 v.
Proof. reflexivity. Qed.

(** Shifting the [n] low bytes of [v] into [acc] puts [acc] above the low
    [8n] bits of [v]. *)
Lemma fold_be_bytes (n : nat) : forall (v acc j : Z),
  0 <= v -> 0 <= j -> j + 8 * Z.of_nat n <= 64 -> 0 <= acc < 2 ^ j ->
  fold_left shift_in (be_bytes n v) acc =
  acc * 2 ^ (8 * Z.of_nat n) + v mod 2 ^ (8 * Z.of_nat n).
Proof.
  induction n as [| n IH]; intros v acc j Hv Hj Hn Hacc.
  - simpl. rewrite Z.mod_1_r. lia.
  - cbn [be_bytes fold_left].
    rewrite (IH v _ (j + 8)); [| lia | lia | lia |
      apply U64Facts.shift_in_range; lia].
    rewrite (U64Facts.shift_in_add acc _ j) by lia.
    rewrite ByteFacts.unsigned_of_Z_mod, U64Facts.shr_div by lia.
    replace (8 * Z.of_nat (S n)) with (8 * Z.of_nat n + 8) by lia.
    rewrite Z.pow_add_r by lia. change (2 ^ 8) with 256.
    assert (Hp : 0 < 2 ^ (8 * Z.of_nat n)) by (apply Z.pow_pos_nonneg; lia).
    rewrite (Z.rem_mul_r v (2 ^ (8 * Z.of_nat n)) 256) by lia.
    ring.
Qed.

(** A value below [2^(6 + 8n)] is read back from its top six bits and its
    [n] low bytes, whatever follows them. *)
Lemma fold_top_be_bytes (n : nat) (v : Z) (extra : list byte) :
  8 * Z.of_nat n + 6 <= 62 -> 0 <= v < 2 ^ (6 + 8 * Z.of_nat n) ->
  fold_left shift_in (firstn n (be_bytes n v ++ extra))
            ((U64.shr v (8 * Z.of_nat n)) mod 64) = v.
Proof.
  intros Hn Hv.
  rewrite firstn_app, be_bytes_length, Nat.sub_diag, firstn_O, app_nil_r.
  rewrite <- (be_bytes_length n v) at 1. rewrite firstn_all.
  rewrite U64Facts.shr_div by lia.
  assert (Hp : 0 < 2 ^ (8 * Z.of_nat n)) by (apply Z.pow_pos_nonneg; lia).
  assert (Hq : 0 <= v / 2 ^ (8 * Z.of_nat n) < 64).
  { split; [apply Z.div_pos; lia |].
    apply Z.div_lt_upper_bound; [lia |].
    replace (6 + 8 * Z.of_nat n) with (8 * Z.of_nat n + 6) in Hv by lia.
    rewrite Z.pow_add_r in Hv by lia. change (2 ^ 6) with 64 in Hv. lia. }
  rewrite (Z.mod_small _ 64) by exact Hq.
  rewrite (fold_be_bytes n v _ 6) by (change (2 ^ 6) with 64; lia).
  pose proof (Z.div_mod v (2 ^ (8 * Z.of_nat n)) ltac:(lia)). lia.
Qed.

(** The comparisons of [Len] are the comparisons of [Append]. *)
Lemma shr_eqb_leb (v k : Z) :
  0 <= v -> 0 <= k -> (U64.shr v k =? 0) = (v <=? 2 ^ k - 1).
Proof.
  intros Hv Hk. rewrite U64Facts.shr_div by exact Hk.
  assert (Hp : 0 < 2 ^ k) by (apply Z.pow_pos_nonneg; lia).
  destruct (Z.leb_spec v (2 ^ k - 1)) as [Hle | Hgt].
  - apply Z.eqb_eq. apply Z.div_small. lia.
  - apply Z.eqb_neq. intros E.
    pose proof (Z.div_le_mono (2 ^ k) v (2 ^ k) Hp ltac:(lia)) as Hd.
    rewrite Z.div_same in Hd by lia. lia.
Qed.

Lemma Len_leb (v : Z) :
  0 <= v ->
  Len v =
  if v <=? _maxVarInt1 then Ret 1
  else if v <=? _maxVarInt2 then Ret 2
  else if v <=? _maxVarInt4 then Ret 4
  else if v <=? _maxVarInt8 then Ret 8
  else Panic (varintLengthError v).
Proof.
  intros Hv. unfold Len. rewrite !shr_eqb_leb by lia. reflexivity.
Qed.

End EncFacts.

(** ** Parsing what the encoder wrote *)

Module RoundTrip.
Import ParseFacts EncFacts.

(** The one-byte form. *)
Lemma Parse_enc1 (v : Z) (extra : list byte) :
  0 <= v <= _maxVarInt1 -> Parse (enc1 v ++ extra) = Ret (v, 1, None).
Proof.
  unfold _maxVarInt1. intros Hv. cbn [enc1 app].
  assert (Hu : byte.unsigned (byte.of_Z v) = v)
    by (apply ByteFacts.unsigned_of_Z_small; lia).
  destruct (ByteFacts.no_tag (byte.of_Z v) ltac:(lia)) as [Ht Hl].
  assert (Hd : declared (byte.of_Z v) = 1) by (unfold declared; rewrite Ht; reflexivity).
  rewrite Parse_enough by (rewrite Hd; cbn [List.length]; lia).
  unfold payload, U64.of_byte. rewrite Hd, Hl, Hu. reflexivity.
Qed.

(** The forms with a tag: six top bits under the tag [t] of number [k],
    then the [n] low bytes. *)
Lemma Parse_tagged (n : nat) (t : byte) (k v : Z) (extra : list byte) :
  (t, k) = (Byte.x40, 1) \/ (t, k) = (Byte.x80, 2) \/ (t, k) = (Byte.xc0, 3) ->
  Z.shiftl 1 k = Z.of_nat n + 1 ->
  0 <= v < 2 ^ (6 + 8 * Z.of_nat n) ->
  Parse ((U8.or (byte.of_Z (Z.land (U64.shr v (8 * Z.of_nat n)) 0x3F)) t
            :: be_bytes n v) ++ extra) =
  Ret (v, Z.of_nat n + 1, None).
Proof.
  intros Htk Hk Hv.
  assert (Hn : Z.of_nat n <= 7).
  { destruct Htk as [E | [E | E]]; injection E as _ ->; simpl in Hk; lia. }
  set (p := byte.of_Z (Z.land (U64.shr v (8 * Z.of_nat n)) 0x3F)).
  assert (Hs : 0 <= U64.shr v (8 * Z.of_nat n)).
  { rewrite U64Facts.shr_div by lia. apply Z.div_pos; [lia |].
    apply Z.pow_pos_nonneg; lia. }
  assert (Hp : byte.unsigned p = U64.shr v (8 * Z.of_nat n) mod 64)
    by (apply ByteFacts.six_bits; exact Hs).
  assert (Hp64 : byte.unsigned p < 64).
  { rewrite Hp. apply Z.mod_pos_bound. lia. }
  destruct (ByteFacts.or_tag p t k Hp64 Htk) as [Ht Hl].
  assert (Hd : declared (U8.or p t) = Z.of_nat n + 1)
    by (unfold declared; rewrite Ht; exact Hk).
  cbn [app].
  rewrite Parse_enough
    by (rewrite Hd; cbn [List.length]; rewrite length_app, be_bytes_length; lia).
  unfold payload, U64.of_byte. rewrite Hd, Hl, Hp.
  replace (Z.to_nat (Z.of_nat n + 1 - 1)) with n by lia.
  rewrite fold_top_be_bytes by lia. reflexivity.
Qed.

Lemma Parse_enc2 (v : Z) (extra : list byte) :
  0 <= v <= _maxVarInt2 -> Parse (enc2 v ++ extra) = Ret (v, 2, None).
Proof.
  unfold _maxVarInt2. intros Hv.
  apply (Parse_tagged 1 Byte.x40 1 v extra); [auto | reflexivity |].
  change (2 ^ (6 + 8 * Z.of_nat 1)) with 16384. lia.
Qed.

Lemma Parse_enc4 (v : Z) (extra : list byte) :
  0 <= v <= _maxVarInt4 -> Parse (enc4 v ++ extra) = Ret (v, 4, None).
Proof.
  unfold _maxVarInt4. intros Hv.
  apply (Parse_tagged 3 Byte.x80 2 v extra); [auto | reflexivity |].
  change (2 ^ (6 + 8 * Z.of_nat 3)) with 1073741824. lia.
Qed.

Lemma Parse_enc8 (v : Z) (extra : list byte) :
  0 <= v <= _maxVarInt8 -> Parse (enc8 v ++ extra) = Ret (v, 8, None).
Proof.
  unfold _maxVarInt8, Max. intros Hv.
  apply (Parse_tagged 7 Byte.xc0 3 v extra); [auto | reflexivity |].
  change (2 ^ (6 + 8 * Z.of_nat 7)) with 4611686018427387904. lia.
Qed.

(** [Append] on a value in range: the case it takes, by the length. *)
Lemma Append_cases (dst : list byte) (v : Z) :
  0 <= v <= Max ->
  exists (n : Z) (enc : list byte),
    Len v = Ret n /\ Append dst v = Ret (dst ++ enc) /\
    Z.of_nat (List.length enc) = n /\
    (forall extra, Parse (enc ++ extra) = Ret (v, n, None)) /\
    ((n = 1 /\ enc = enc1 v /\ v <= _maxVarInt1) \/
     (n = 2 /\ enc = enc2 v /\ _maxVarInt1 < v <= _maxVarInt2) \/
     (n = 4 /\ enc = enc4 v /\ _maxVarInt2 < v <= _maxVarInt4) \/
     (n = 8 /\ enc = enc8 v /\ _maxVarInt4 < v <= _maxVarInt8)).
Proof.
  intros Hv. rewrite Len_leb by lia. unfold Append.
  destruct (Z.leb_spec v _maxVarInt1) as [H1 | H1].
  { exists 1, (enc1 v). repeat split; auto.
    intros extra. apply Parse_enc1. lia. }
  destruct (Z.leb_spec v _maxVarInt2) as [H2 | H2].
  { exists 2, (enc2 v). repeat split; auto.
    - intros extra. apply Parse_enc2. lia.
    - right; left. auto. }
  destruct (Z.leb_spec v _maxVarInt4) as [H4 | H4].
  { exists 4, (enc4 v). repeat split; auto.
    - intros extra. apply Parse_enc4. lia.
    - right; right; left. auto. }
  destruct (Z.leb_spec v _maxVarInt8) as [H8 | H8].
  { exists 8, (enc8 v). repeat split; auto.
    - intros extra. apply Parse_enc8. lia.
    - right; right; right. auto. }
  unfold _maxVarInt8 in H8. lia.
Qed.

End RoundTrip.

(** ** Reading from a byte reader *)

Module ReadFacts.
Import ParseFacts.

Lemma fold_shift_in_Z (xs : list byte) : forall (value j : Z),
  0 <= j -> j + 8 * Z.of_nat (List.length xs) <= 64 -> 0 <= value < 2 ^ j ->
  fold_left shift_in xs value = fold_left shift_in_Z xs value.
Proof.
  induction xs as [| x xs IH]; intros value j Hj Hlen Hv.
  - reflexivity.
  - cbn [fold_left]. cbn [List.length] in Hlen. rewrite Nat2Z.inj_succ in Hlen.
    rewrite (U64Facts.shift_in_add value x j) by lia.
    apply (IH _ (j + 8)); [lia | lia |].
    rewrite <- (U64Facts.shift_in_add value x j) by lia.
    apply U64Facts.shift_in_range; lia.
Qed.

Lemma lor_add_div (x lo k : Z) :
  0 <= k -> x mod 2 ^ k = 0 -> 0 <= lo < 2 ^ k -> Z.lor x lo = x + lo.
Proof.
  intros Hk Hx Hlo.
  assert (Hp : 0 < 2 ^ k) by (apply Z.pow_pos_nonneg; lia).
  pose proof (Z.div_mod x (2 ^ k) ltac:(lia)) as E. rewrite Hx, Z.add_0_r in E.
  rewrite E at 1. rewrite (Z.mul_comm (2 ^ k)).
  rewrite U64Facts.lor_add by assumption. lia.
Qed.

Lemma value4 (a : Z) (b1 b2 b3 : byte) :
  0 <= a < 64 ->
  Z.lor (Z.lor (Z.lor (U64.shl a 24) (U64.shl (U64.of_byte b1) 16))
               (U64.shl (U64.of_byte b2) 8)) (U64.of_byte b3) =
  fold_left shift_in [b1; b2; b3] a.
Proof.
  intros Ha. rewrite (fold_shift_in_Z _ a 6) by (cbn; lia).
  cbn [fold_left]. unfold shift_in_Z, U64.of_byte.
  pose proof (ByteFacts.range b1). pose proof (ByteFacts.range b2).
  pose proof (ByteFacts.range b3).
  rewrite (U64Facts.shl_small a 24 6), (U64Facts.shl_small _ 16 8),
    (U64Facts.shl_small _ 8 8) by (cbn; lia).
  change (2 ^ 24) with 16777216. change (2 ^ 16) with 65536.
  change (2 ^ 8) with 256.
  rewrite (lor_add_div (a * _) (_ * _) 24) by (cbn; Z.div_mod_to_equations; lia).
  rewrite (lor_add_div (_ + _) (_ * _) 16) by (cbn; Z.div_mod_to_equations; lia).
  rewrite (lor_add_div (_ + _) (byte.unsigned b3) 8)
    by (cbn; Z.div_mod_to_equations; lia).
  lia.
Qed.

Lemma value8 (a : Z) (b1 b2 b3 b4 b5 b6 b7 : byte) :
  0 <= a < 64 ->
  Z.lor (Z.lor (Z.lor (Z.lor (Z.lor (Z.lor (Z.lor
    (U64.shl a 56)
    (U64.shl (U64.of_byte b1) 48))
    (U64.shl (U64.of_byte b2) 40))
    (U64.shl (U64.of_byte b3) 32))
    (U64.shl (U64.of_byte b4) 24))
    (U64.shl (U64.of_byte b5) 16))
    (U64.shl (U64.of_byte b6) 8))
    (U64.of_byte b7) =
  fold_left shift_in [b1; b2; b3; b4; b5; b6; b7] a.
Proof.
  intros Ha. rewrite (fold_shift_in_Z _ a 6) by (cbn; lia).
  cbn [fold_left]. unfold shift_in_Z, U64.of_byte.
  pose proof (ByteFacts.range b1). pose proof (ByteFacts.range b2).
  pose proof (ByteFacts.range b3). pose proof (ByteFacts.range b4).
  pose proof (ByteFacts.range b5). pose proof (ByteFacts.range b6).
  pose proof (ByteFacts.range b7).
  rewrite (U64Facts.shl_small a 56 6), (U64Facts.shl_small _ 48 8),
    (U64Facts.shl_small _ 40 8), (U64Facts.shl_small _ 32 8),
    (U64Facts.shl_small _ 24 8), (U64Facts.shl_small _ 16 8),
    (U64Facts.shl_small _ 8 8) by (cbn; lia).
  change (2 ^ 56) with 72057594037927936.
  change (2 ^ 48) with 281474976710656.
  change (2 ^ 40) with 1099511627776.
  change (2 ^ 32) with 4294967296.
  change (2 ^ 24) with 16777216. change (2 ^ 16) with 65536.
  change (2 ^ 8) with 256.
  rewrite (lor_add_div (a * _) (_ * _) 56) by (cbn; Z.div_mod_to_equations; lia).
  rewrite (lor_add_div (_ + _) (_ * _) 48) by (cbn; Z.div_mod_to_equations; lia).
  rewrite (lor_add_div (_ + _) (_ * _) 40) by (cbn; Z.div_mod_to_equations; lia).
  rewrite (lor_add_div (_ + _) (_ * _) 32) by (cbn; Z.div_mod_to_equations; lia).
  rewrite (lor_add_div (_ + _) (_ * _) 24) by (cbn; Z.div_mod_to_equations; lia).
  rewrite (lor_add_div (_ + _) (_ * _) 16) by (cbn; Z.div_mod_to_equations; lia).
  rewrite (lor_add_div (_ + _) (byte.unsigned b7) 8)
    by (cbn; Z.div_mod_to_equations; lia).
  lia.
Qed.

End ReadFacts.

Module StreamFacts.
Import ParseFacts ReadFacts.

Section Reader.
Context {R : Type} `{ByteReader R}.

Lemma readByte_cases (r : R) :
  (exists x r', ReadByte r = ((x, None), r') /\ readByte r = (Val x, r')) \/
  (exists x e r', ReadByte r = ((x, Some e), r') /\ readByte r = (Err e, r')).
Proof.
  unfold readByte. destruct (ReadByte r) as [[x [e |]] r'].
  - right. exists x, e, r'. auto.
  - left. exists x, r'. auto.
Qed.

Lemma pull_cases (n : nat) : forall r : R,
  (exists xs r', pull n r = (Val xs, r') /\ List.length xs = n) \/
  (exists e r', pull n r = (Err e, r')).
Proof.
  induction n as [| n IH]; intros r.
  - left. exists [], r. auto.
  - destruct (readByte_cases r) as [(x & r1 & _ & E) | (x & e & r1 & _ & E)].
    + destruct (IH r1) as [(xs & r2 & E2 & Hlen) | (e & r2 & E2)].
      * left. exists (x :: xs), r2. cbn [pull]. unfold bind.
        rewrite E, E2. simpl. auto.
      * right. exists e, r2. cbn [pull]. unfold bind.
        rewrite E, E2. reflexivity.
    + right. exists e, r1. cbn [pull]. unfold bind. rewrite E. reflexivity.
Qed.

(** [Read] reads the first byte, then the bytes it declares, and gives
    the value [Parse] computes from them. *)
Lemma Read_io_pull (r : R) :
  Read_io r =
  (b0 <- readByte ;;
   rest <- pull (Z.to_nat (declared b0 - 1)) ;;
   ret (payload b0 rest)) r.
Proof.
  unfold Read_io, bind.
  destruct (readByte r) as [[b0 | e | p] r0]; try reflexivity.
  pose proof (ByteFacts.low6_range b0) as Ha.
  unfold payload.
  destruct (declared_cases b0) as [[Ht Hd] | [[Ht Hd] | [[Ht Hd] | [Ht Hd]]]];
    rewrite Ht, Hd;
    [ change (Z.to_nat (1 - 1)) with 0%nat
    | change (Z.to_nat (2 - 1)) with 1%nat
    | change (Z.to_nat (4 - 1)) with 3%nat
    | change (Z.to_nat (8 - 1)) with 7%nat ];
    cbn [pull]; unfold bind, ret;
    repeat match goal with
           | |- context [readByte ?s] =>
               destruct (readByte s) as [[? | ? | ?] ?]
           end;
    try reflexivity; cbn [firstn fold_left].
  - rewrite value4 by exact Ha. reflexivity.
  - rewrite value8 by exact Ha. reflexivity.
Qed.

(** The three ways a call of [Read] ends: the first [ReadByte] fails,
    a later one does, or all succeed. *)
Lemma Read_cases (r : R) :
  (exists x e r',
      ReadByte r = ((x, Some e), r') /\ Read r = (Ret (0, Some e), r')) \/
  (exists b0 r0 e r1,
      readByte r = (Val b0, r0) /\
      pull (Z.to_nat (declared b0 - 1)) r0 = (Err e, r1) /\
      Read r = (Ret (0, Some e), r1)) \/
  (exists b0 r0 rest r1,
      readByte r = (Val b0, r0) /\
      pull (Z.to_nat (declared b0 - 1)) r0 = (Val rest, r1) /\
      Read r = (Ret (payload b0 rest, None), r1)).
Proof.
  unfold Read. rewrite Read_io_pull. unfold bind.
  destruct (readByte_cases r) as [(b0 & r0 & _ & E) | (x & e & r0 & E0 & E)];
    rewrite E.
  - destruct (pull_cases (Z.to_nat (declared b0 - 1)) r0)
      as [(rest & r1 & E1 & _) | (e & r1 & E1)]; rewrite E1.
    + right; right. exists b0, r0, rest, r1. auto.
    + right; left. exists b0, r0, e, r1. auto.
  - left. exists x, e, r0. auto.
Qed.

End Reader.

(** On a slice reader the bytes pulled are a prefix of the slice, and
    running out of them is [io.EOF]. *)
Lemma pull_slice (n : nat) : forall xs : sliceReader,
  (n <= List.length xs)%nat -> pull n xs = (Val (firstn n xs), skipn n xs).
Proof.
  induction n as [| n IH]; intros xs Hn.
  - reflexivity.
  - destruct xs as [| x xs]; [simpl in Hn; lia |].
    cbn [pull firstn skipn]. unfold bind. cbn.
    rewrite IH by (simpl in Hn; lia). reflexivity.
Qed.

Lemma pull_slice_short (n : nat) : forall xs : sliceReader,
  (List.length xs < n)%nat -> pull n xs = (Err EOF, []).
Proof.
  induction n as [| n IH]; intros xs Hn.
  - lia.
  - destruct xs as [| x xs]; [reflexivity |].
    cbn [pull]. unfold bind. cbn.
    rewrite IH by (simpl in Hn; lia). reflexivity.
Qed.

Lemma payload_firstn (first : byte) (rest : list byte) :
  payload first (firstn (Z.to_nat (declared first - 1)) rest) = payload first rest.
Proof. unfold payload. rewrite firstn_firstn, Nat.min_id. reflexivity. Qed.

(** With the declared bytes in the slice, [Read] returns the value of
    [Parse] and leaves what follows them. *)
Lemma Read_slice_enough (first : byte) (rest : list byte) :
  declared first <= Z.of_nat (List.length (first :: rest)) ->
  Read (first :: rest : sliceReader) =
  (Ret (payload first rest, None), skipn (Z.to_nat (declared first - 1)) rest).
Proof.
  intros Hlen. unfold Read. rewrite Read_io_pull. unfold bind. cbn [readByte].
  change (readByte (first :: rest : sliceReader)) with (@Val byte first, rest : sliceReader).
  cbv iota beta.
  rewrite pull_slice by (cbn [List.length] in Hlen; lia).
  unfold ret. rewrite payload_firstn. reflexivity.
Qed.

(** With fewer, [Read] returns the reader's [io.EOF]. *)
Lemma Read_slice_short (first : byte) (rest : list byte) :
  Z.of_nat (List.length (first :: rest)) < declared first ->
  Read (first :: rest : sliceReader) = (Ret (0, Some EOF), []).
Proof.
  intros Hlen. unfold Read. rewrite Read_io_pull. unfold bind.
  change (readByte (first :: rest : sliceReader)) with (@Val byte first, rest : sliceReader).
  cbv iota beta.
  rewrite pull_slice_short by (cbn [List.length] in Hlen; lia).
  reflexivity.
Qed.

Section Writer.
Context {W : Type} `{ByteWriter W}.

Lemma writeByte_push (c : byte) (w : W) : writeByte c w = push [c] w.
Proof.
  cbn [push]. unfold bind, ret.
  destruct (writeByte c w) as [[[] | e | p] w']; reflexivity.
Qed.

Lemma push_cons (c : byte) (cs : list byte) (w : W) :
  (writeByte c ;;; push cs) w = push (c :: cs) w.
Proof. reflexivity. Qed.

(** [Write] pushes the bytes [Append] appends, in order, and leaves at
    the first error. *)
Lemma Write_io_push (v : Z) (w : W) :
  Write_io v w =
  if v <=? _maxVarInt1 then push (enc1 v) w
  else if v <=? _maxVarInt2 then push (enc2 v) w
  else if v <=? _maxVarInt4 then push (enc4 v) w
  else if v <=? _maxVarInt8 then push (enc8 v) w
  else (Pan (varintLengthError v), w).
Proof.
  unfold Write_io.
  destruct (v <=? _maxVarInt1); [apply writeByte_push |].
  destruct (v <=? _maxVarInt2).
  { unfold enc2. cbn [push]. unfold bind.
    destruct (writeByte _ w) as [[[] | e | p] w1]; try reflexivity.
    apply writeByte_push. }
  destruct (v <=? _maxVarInt4).
  { unfold enc4. cbn [push]. unfold bind.
    repeat match goal with
           | |- context [writeByte ?c ?s] =>
               destruct (writeByte c s) as [[[] | ? | ?] ?]
           end; reflexivity. }
  destruct (v <=? _maxVarInt8).
  { unfold enc8. cbn [push]. unfold bind.
    repeat match goal with
           | |- context [writeByte ?c ?s] =>
               destruct (writeByte c s) as [[[] | ? | ?] ?]
           end; reflexivity. }
  reflexivity.
Qed.

(** On such a writer under a log, pushing succeeds and the log grows by
    the bytes pushed. *)
Lemma push_logged (cs : list byte) : forall (w : W) (log : list byte),
  accepts_all W ->
  exists w' : W, push cs ((w, log) : logged W) = (Val tt, (w', log ++ cs)).
Proof.
  induction cs as [| c cs IH]; intros w log Hok.
  - exists w. cbn [push]. unfold ret. rewrite app_nil_r. reflexivity.
  - cbn [push]. unfold bind, writeByte.
    change (WriteByte (w, log) c)
      with (let '(e, w') := WriteByte w c in (e, (w', log ++ [c]))).
    pose proof (Hok w c) as Hc.
    destruct (WriteByte w c) as [e w1]. simpl in Hc. subst e.
    destruct (IH w1 (log ++ [c]) Hok) as [w' E].
    exists w'. rewrite E, <- app_assoc. reflexivity.
Qed.

End Writer.
End StreamFacts.

(** * The specification *)

Import ParseFacts EncFacts RoundTrip StreamFacts.

(** C1. Round trip: for every value [v] in [[0, 2^62 - 1]], appending [v]
    to an empty buffer returns an encoding, [Len v] returns a length, and
    parsing the encoding returns the value [v], the consumed count [Len v]
    and no error. *)
Theorem C1_round_trip (v : Z) :
  0 <= v <= Max ->
  exists (enc : list byte) (n : Z),
    Append [] v = Ret enc /\ Len v = Ret n /\ Parse enc = Ret (v, n, None).
Proof.
  intros Hv.
  destruct (Append_cases [] v Hv) as (n & enc & HLen & HApp & _ & HParse & _).
  exists enc, n. repeat split; try assumption.
  rewrite <- (app_nil_r enc). apply HParse.
Qed.

Lemma C1_round_trip_witness :
  0 <= 16384 <= Max /\
  exists (enc : list byte) (n : Z),
    Append [] 16384 = Ret enc /\ Len 16384 = Ret n /\
    Parse enc = Ret (16384, n, None).
Proof.
  split; [unfold Max; lia | apply (C1_round_trip 16384); unfold Max; lia].
Defined.

(** C2. Boundary exactness of the wire format: [Append] on an empty buffer
    gives the one byte [0x3F] for 63, two bytes for 64 and for 16383, four
    bytes for 16384 and for 1073741823, eight bytes for 1073741824, and the
    eight bytes [0xFF] for [Max = 4611686018427387903]. *)
Theorem C2_boundaries :
  Append [] 63 = Ret [Byte.x3f] /\
  Append [] 64 = Ret [Byte.x40; Byte.x40] /\
  Append [] 16383 = Ret [Byte.x7f; Byte.xff] /\
  Append [] 16384 = Ret [Byte.x80; Byte.x00; Byte.x40; Byte.x00] /\
  Append [] 1073741823 = Ret [Byte.xbf; Byte.xff; Byte.xff; Byte.xff] /\
  Append [] 1073741824 =
    Ret [Byte.xc0; Byte.x00; Byte.x00; Byte.x00;
         Byte.x40; Byte.x00; Byte.x00; Byte.x00] /\
  Append [] 4611686018427387903 =
    Ret [Byte.xff; Byte.xff; Byte.xff; Byte.xff;
         Byte.xff; Byte.xff; Byte.xff; Byte.xff].
Proof. repeat split; vm_compute; reflexivity. Qed.

(** C3. [Len v] is 1 up to [2^6 - 1], 2 up to [2^14 - 1], 4 up to
    [2^30 - 1] and 8 up to [2^62 - 1]; it panics with the length error
    above [2^62 - 1]; and the length it returns is the least of 1, 2, 4, 8
    whose payload bits admit [v]. *)
Theorem C3_Len (v : Z) :
  0 <= v < 2 ^ 64 ->
  (v <= 2 ^ 6 - 1 -> Len v = Ret 1) /\
  (2 ^ 6 - 1 < v <= 2 ^ 14 - 1 -> Len v = Ret 2) /\
  (2 ^ 14 - 1 < v <= 2 ^ 30 - 1 -> Len v = Ret 4) /\
  (2 ^ 30 - 1 < v <= 2 ^ 62 - 1 -> Len v = Ret 8) /\
  (2 ^ 62 - 1 < v -> Len v = Panic (varintLengthError v)) /\
  (forall n : Z,
      Len v = Ret n ->
      In n lengths /\ admits n v /\
      forall m : Z, In m lengths -> admits m v -> n <= m).
Proof.
  intros Hv. rewrite Len_leb by lia.
  unfold _maxVarInt1, _maxVarInt2, _maxVarInt4, _maxVarInt8, Max.
  change (2 ^ 6 - 1) with 63. change (2 ^ 14 - 1) with 16383.
  change (2 ^ 30 - 1) with 1073741823.
  change (2 ^ 62 - 1) with 4611686018427387903.
  assert (Hmin : forall n : Z,
             In n lengths -> admits n v ->
             (forall m : Z, In m lengths -> m < n -> ~ admits m v) ->
             In n lengths /\ admits n v /\
             forall m : Z, In m lengths -> admits m v -> n <= m).
  { intros n Hn Ha Hlow. repeat split; try assumption.
    intros m Hm Hma. destruct (Z.le_gt_cases n m) as [Hle | Hgt]; [exact Hle |].
    exfalso. apply (Hlow m Hm); [lia | exact Hma]. }
  destruct (Z.leb_spec v 63) as [H1 | H1];
    [| destruct (Z.leb_spec v 16383) as [H2 | H2];
       [| destruct (Z.leb_spec v 1073741823) as [H4 | H4];
          [| destruct (Z.leb_spec v 4611686018427387903) as [H8 | H8]]]];
    (split; [intros; first [reflexivity | lia] |]);
    (split; [intros; first [reflexivity | lia] |]);
    (split; [intros; first [reflexivity | lia] |]);
    (split; [intros; first [reflexivity | lia] |]);
    (split; [intros; first [reflexivity | lia] |]);
    intros n E; try discriminate E; injection E as <-;
    (apply Hmin; [simpl; tauto | unfold admits; simpl; lia |]);
    intros m [<- | [<- | [<- | [<- | []]]]] Hm; unfold admits; simpl; lia.
Qed.

Lemma C3_Len_witness : Len 16383 = Ret 2.
Proof.
  destruct (C3_Len 16383 ltac:(lia)) as (_ & H2 & _). apply H2. lia.
Defined.

(** C5. Truncation: parsing the empty input returns the end-of-input error
    [io.EOF]; parsing a non-empty input shorter than the length the tag of
    its first byte declares, such as the one byte [0xC0], returns
    [io.ErrUnexpectedEOF] with value 0 and consumed count 0. *)
Theorem C5_Parse_truncated :
  Parse [] = Ret (0, 0, Some EOF) /\
  Parse [Byte.xc0] = Ret (0, 0, Some ErrUnexpectedEOF) /\
  forall (b : list byte) (first : byte),
    nth_error b 0 = Some first ->
    Z.of_nat (List.length b) < declared first ->
    Parse b = Ret (0, 0, Some ErrUnexpectedEOF).
Proof.
  split; [reflexivity |]. split; [reflexivity |].
  intros [| x rest] first Hfirst Hlen; [discriminate Hfirst |].
  injection Hfirst as ->. apply Parse_short. exact Hlen.
Qed.

Lemma C5_Parse_truncated_witness :
  Parse [Byte.x80; Byte.x01; Byte.x02] = Ret (0, 0, Some ErrUnexpectedEOF).
Proof.
  apply (proj2 (proj2 C5_Parse_truncated) [Byte.x80; Byte.x01; Byte.x02] Byte.x80);
    [reflexivity | vm_compute; reflexivity].
Defined.

(** C8. Frame and atomicity of [Append]: for a value up to [2^62 - 1] the
    result is the destination's contents followed by the bytes of the
    encoding; above it [Append] panics with the length error and returns no
    slice. *)
Theorem C8_Append_frame (dst : list byte) (v : Z) :
  0 <= v < 2 ^ 64 ->
  (v <= Max ->
   exists enc : list byte,
     Append [] v = Ret enc /\ enc <> [] /\ Append dst v = Ret (dst ++ enc)) /\
  (Max < v -> Append dst v = Panic (varintLengthError v)).
Proof.
  intros Hv. split.
  - intros Hmax.
    destruct (Append_cases dst v ltac:(lia)) as (n & enc & _ & HApp & Hn & _ & Hc).
    destruct (Append_cases [] v ltac:(lia)) as (n' & enc' & _ & HApp' & _ & _ & Hc').
    assert (enc' = enc).
    { destruct Hc as [(_ & -> & ?) | [(_ & -> & ?) | [(_ & -> & ?) | (_ & -> & ?)]]];
      destruct Hc' as [(_ & -> & ?) | [(_ & -> & ?) | [(_ & -> & ?) | (_ & -> & ?)]]];
      first [reflexivity
            | unfold _maxVarInt1, _maxVarInt2, _maxVarInt4, _maxVarInt8, Max in *; lia]. }
    subst enc'. exists enc. repeat split; try assumption.
    intros ->. simpl in Hn.
    destruct Hc as [(-> & _) | [(-> & _) | [(-> & _) | (-> & _)]]]; discriminate Hn.
  - intros Hmax. unfold Append, _maxVarInt1, _maxVarInt2, _maxVarInt4, _maxVarInt8.
    unfold Max in *.
    repeat match goal with
           | |- context [?a <=? ?b] => destruct (Z.leb_spec a b); [lia |]
           end.
    reflexivity.
Qed.

Lemma C8_Append_frame_witness :
  Append [Byte.x01] 4611686018427387904 =
  Panic (varintLengthError 4611686018427387904).
Proof.
  apply (proj2 (C8_Append_frame [Byte.x01] 4611686018427387904 ltac:(lia))).
  unfold Max. lia.
Defined.

(** C9. Bounded consumption: on an input that holds the bytes its first
    byte declares, [Parse] returns a value, the declared length as consumed
    count and no error, and returns the same on the first declared-length
    bytes followed by any other bytes. *)
Theorem C9_Parse_bounded (b : list byte) (first : byte) :
  nth_error b 0 = Some first ->
  declared first <= Z.of_nat (List.length b) ->
  declared first = Z.shiftl 1 (byte.unsigned (U8.shr first 6)) /\
  exists value : Z,
    Parse b = Ret (value, declared first, None) /\
    forall extra : list byte,
      Parse (firstn (Z.to_nat (declared first)) b ++ extra) =
      Ret (value, declared first, None).
Proof.
  intros Hfirst Hlen. split; [reflexivity |].
  destruct b as [| x rest]; [discriminate Hfirst |]. injection Hfirst as ->.
  exists (payload first rest). split; [apply Parse_enough; exact Hlen |].
  intros extra. pose proof (declared_range first) as Hd.
  replace (Z.to_nat (declared first)) with (S (Z.to_nat (declared first - 1))) by lia.
  cbn [firstn app List.length] in *.
  assert (Hk : List.length (firstn (Z.to_nat (declared first - 1)) rest) =
               Z.to_nat (declared first - 1))
    by (rewrite length_firstn; lia).
  rewrite Parse_enough by (cbn [List.length]; rewrite length_app; lia).
  unfold payload.
  rewrite firstn_app, Hk, Nat.sub_diag, firstn_O, app_nil_r.
  rewrite firstn_firstn, Nat.min_id. reflexivity.
Qed.

Lemma C9_Parse_bounded_witness :
  exists value : Z,
    Parse [Byte.x40; Byte.x40; Byte.xff] = Ret (value, 2, None) /\
    forall extra : list byte,
      Parse ([Byte.x40; Byte.x40] ++ extra) = Ret (value, 2, None).
Proof.
  apply (C9_Parse_bounded [Byte.x40; Byte.x40; Byte.xff] Byte.x40);
    [reflexivity | vm_compute; discriminate].
Defined.

(** C4. [Read] is to fail with [io.EOF] when the reader has no byte for it,
    and with [io.ErrUnexpectedEOF] when the bytes run out after the first
    one.  The first holds.  The second does not: every error return of
    [Read] hands on the error of [ReadByte], so on the reader over the one
    byte [0xC0], whose tag declares eight bytes, [Read] returns [io.EOF],
    the error it returns on no bytes at all, where [Parse] on the same byte
    returns [io.ErrUnexpectedEOF]. *)
Theorem C4_Read_truncated :
  Read ([] : sliceReader) = (Ret (0, Some EOF), []) /\
  Read ([Byte.xc0] : sliceReader) = (Ret (0, Some EOF), []) /\
  fst (Read ([Byte.xc0] : sliceReader)) <> Ret (0, Some ErrUnexpectedEOF) /\
  Parse [Byte.xc0] = Ret (0, 0, Some ErrUnexpectedEOF).
Proof.
  split; [reflexivity |].
  split; [exact (Read_slice_short Byte.xc0 [] eq_refl) |].
  split; [| reflexivity].
  rewrite (Read_slice_short Byte.xc0 [] eq_refl). cbn [fst].
  intros E. discriminate E.
Qed.

(** C6. Stream and slice decoding agree: for every value [v] in
    [[0, 2^62 - 1]], [Read] on a reader over exactly the bytes of
    [Append [] v] returns, with no error, the value [Parse] returns on those
    bytes, and leaves no byte unread. *)
Theorem C6_stream_slice (v : Z) :
  0 <= v <= Max ->
  exists (enc : list byte) (value n : Z),
    Append [] v = Ret enc /\
    Parse enc = Ret (value, n, None) /\
    Read (enc : sliceReader) = (Ret (value, None), []).
Proof.
  intros Hv.
  destruct (Append_cases [] v Hv) as (n & enc & _ & HApp & Hn & HParse & Hc).
  specialize (HParse []). rewrite app_nil_r in HParse.
  exists enc, v, n. repeat split; try assumption.
  destruct enc as [| first rest].
  { destruct Hc as [(-> & _) | [(-> & _) | [(-> & _) | (-> & _)]]]; discriminate Hn. }
  destruct (Z.lt_ge_cases (Z.of_nat (List.length (first :: rest))) (declared first))
    as [Hshort | Henough].
  { rewrite (Parse_short first rest Hshort) in HParse. discriminate HParse. }
  rewrite (Parse_enough first rest Henough) in HParse.
  injection HParse as Hp Hd.
  rewrite (Read_slice_enough first rest Henough), Hp.
  rewrite skipn_all2; [reflexivity |].
  cbn [List.length] in Hn. lia.
Qed.

Lemma C6_stream_slice_witness :
  0 <= 1073741824 <= Max /\
  exists (enc : list byte) (value n : Z),
    Append [] 1073741824 = Ret enc /\
    Parse enc = Ret (value, n, None) /\
    Read (enc : sliceReader) = (Ret (value, None), []).
Proof.
  split; [unfold Max; lia | apply (C6_stream_slice 1073741824); unfold Max; lia].
Defined.

(** C7. Stream and slice encoding agree: for every value [v] in
    [[0, 2^62 - 1]] and every writer that accepts all bytes, [Write] returns
    no error and the bytes handed to the writer, in call order, are the bytes
    of [Append [] v]; above [2^62 - 1], [Write] panics with the length error,
    no byte has been handed over and the writer is as it was. *)
Theorem C7_Write_Append (W : Type) (wr : ByteWriter W) (w : W) (v : Z) :
  0 <= v < 2 ^ 64 ->
  (v <= Max -> accepts_all W ->
   exists (enc : list byte) (w' : W),
     Append [] v = Ret enc /\
     Write ((w, []) : logged W) v = (Ret None, (w', enc))) /\
  (Max < v ->
   Write ((w, []) : logged W) v = (Panic (varintLengthError v), (w, []))).
Proof.
  intros Hv. split.
  - intros Hmax Hok. unfold Write. rewrite Write_io_push.
    unfold Append. cbn [app].
    repeat match goal with
           | |- context [?a <=? ?b] => destruct (Z.leb_spec a b)
           end;
      try (unfold _maxVarInt8 in *; lia);
      match goal with
      | |- context [push ?cs (w, [])] =>
          destruct (push_logged cs w [] Hok) as [w' E];
          exists cs, w'; rewrite E; split; reflexivity
      end.
  - intros Hmax. unfold Write. rewrite Write_io_push.
    unfold _maxVarInt1, _maxVarInt2, _maxVarInt4, _maxVarInt8, Max in *.
    repeat match goal with
           | |- context [?a <=? ?b] => destruct (Z.leb_spec a b); [lia |]
           end.
    reflexivity.
Qed.

Lemma C7_Write_Append_witness :
  exists (enc : list byte) (w' : buffer),
    Append [] 16384 = Ret enc /\
    Write (([], []) : logged buffer) 16384 = (Ret None, (w', enc)).
Proof.
  apply (proj1 (C7_Write_Append buffer _ [] 16384 ltac:(lia)));
    [unfold Max; lia | intros w c; reflexivity].
Defined.

(** C10. Decoded values are in the encodable domain: [Parse] on any bytes
    and [Read] on any reader return, without panic, a value between 0 and
    [Max = 2^62 - 1], which [Len] and [Append] take without panic. *)
Theorem C10_decoded_in_domain :
  (forall b : list byte,
      exists (v n : Z) (e : option error),
        Parse b = Ret (v, n, e) /\ 0 <= v <= Max /\
        (exists k : Z, Len v = Ret k) /\
        (exists enc : list byte, Append [] v = Ret enc)) /\
  (forall (R : Type) (rd : ByteReader R) (r : R),
      exists (v : Z) (e : option error) (r' : R),
        Read r = (Ret (v, e), r') /\ 0 <= v <= Max /\
        (exists k : Z, Len v = Ret k) /\
        (exists enc : list byte, Append [] v = Ret enc)).
Proof.
  assert (Henc : forall v : Z,
             0 <= v <= Max ->
             0 <= v <= Max /\ (exists k : Z, Len v = Ret k) /\
             (exists enc : list byte, Append [] v = Ret enc)).
  { intros v Hv. destruct (Append_cases [] v Hv) as (n & enc & HLen & HApp & _).
    split; [exact Hv |]. split; [exists n; exact HLen | exists enc; exact HApp]. }
  assert (H0 : 0 <= 0 <= Max) by (unfold Max; lia).
  split.
  - intros [| first rest].
    + exists 0, 0, (Some EOF). split; [reflexivity | apply Henc, H0].
    + destruct (Z.lt_ge_cases (Z.of_nat (List.length (first :: rest))) (declared first))
        as [Hshort | Henough].
      * exists 0, 0, (Some ErrUnexpectedEOF).
        split; [apply Parse_short, Hshort | apply Henc, H0].
      * exists (payload first rest), (declared first), None.
        split; [apply Parse_enough, Henough | apply Henc, payload_range].
  - intros R rd r.
    destruct (Read_cases r)
      as [(x & e & r' & _ & E) | [(b0 & r0 & e & r1 & _ & _ & E)
                                 | (b0 & r0 & rest & r1 & _ & _ & E)]].
    + exists 0, (Some e), r'. split; [exact E | apply Henc, H0].
    + exists 0, (Some e), r1. split; [exact E | apply Henc, H0].
    + exists (payload b0 rest), None, r1.
      split; [exact E | apply Henc, payload_range].
Qed.

(** * Further properties of the package *)

Module MoreFacts.

(** What [Parse] returns, by the shape of its input. *)
Lemma Parse_chart (b : list byte) :
  (b = [] /\ Parse b = Ret (0, 0, Some EOF)) \/
  (exists first rest,
      b = first :: rest /\ Z.of_nat (List.length b) < declared first /\
      Parse b = Ret (0, 0, Some ErrUnexpectedEOF)) \/
  (exists first rest,
      b = first :: rest /\ declared first <= Z.of_nat (List.length b) /\
      Parse b = Ret (payload first rest, declared first, None)).
Proof.
  destruct b as [| first rest]; [left; split; reflexivity |].
  destruct (Z.lt_ge_cases (Z.of_nat (List.length (first :: rest))) (declared first))
    as [Hshort | Henough].
  - right; left. exists first, rest. auto using Parse_short.
  - right; right. exists first, rest. auto using Parse_enough.
Qed.

(** The encoding of a value in range: one byte list, whatever the
    destination, of the length [Len] gives, opening with a byte that
    declares that length. *)
Lemma encoding_of (v : Z) :
  0 <= v <= Max ->
  exists (n : Z) (first : byte) (rest : list byte),
    Len v = Ret n /\
    (forall dst, Append dst v = Ret (dst ++ first :: rest)) /\
    Z.of_nat (List.length (first :: rest)) = n /\
    declared first = n /\
    (forall extra, payload first (rest ++ extra) = v) /\
    (forall (W : Type) (wr : ByteWriter W) (w : W),
        Write_io v w = push (first :: rest) w).
Proof.
  intros Hv.
  destruct (Append_cases [] v Hv) as (n & enc & HLen & _ & Hn & HParse & Hc).
  assert (HApp : forall dst, Append dst v = Ret (dst ++ enc)).
  { intros dst. unfold Append.
    unfold _maxVarInt1, _maxVarInt2, _maxVarInt4, _maxVarInt8, Max in *.
    destruct Hc as [(_ & -> & ?) | [(_ & -> & ?) | [(_ & -> & ?) | (_ & -> & ?)]]];
      repeat match goal with
             | |- context [?a <=? ?b] => destruct (Z.leb_spec a b); try lia
             end; reflexivity. }
  assert (HW : forall (W : Type) (wr : ByteWriter W) (w : W),
             Write_io v w = push enc w).
  { intros W wr w. rewrite Write_io_push.
    unfold _maxVarInt1, _maxVarInt2, _maxVarInt4, _maxVarInt8, Max in *.
    destruct Hc as [(_ & -> & ?) | [(_ & -> & ?) | [(_ & -> & ?) | (_ & -> & ?)]]];
      repeat match goal with
             | |- context [?a <=? ?b] => destruct (Z.leb_spec a b); try lia
             end; reflexivity. }
  destruct enc as [| first rest].
  { destruct Hc as [(-> & _) | [(-> & _) | [(-> & _) | (-> & _)]]]; discriminate Hn. }
  assert (Hd : declared first = n).
  { pose proof (HParse []) as E. rewrite app_nil_r in E.
    destruct (Z.lt_ge_cases (Z.of_nat (List.length (first :: rest))) (declared first))
      as [Hshort | Henough].
    - rewrite (Parse_short first rest Hshort) in E. discriminate E.
    - rewrite (Parse_enough first rest Henough) in E. congruence. }
  exists n, first, rest. repeat split; try assumption.
  intros extra. pose proof (HParse extra) as E. cbn [app] in E.
  rewrite Parse_enough in E
    by (cbn [List.length] in *; rewrite length_app; lia).
  congruence.
Qed.

(** The value parsed from [n] bytes has at most [8n - 2] bits. *)
Lemma payload_admits (first : byte) (rest : list byte) :
  declared first <= Z.of_nat (List.length (first :: rest)) ->
  0 <= payload first rest /\ admits (declared first) (payload first rest).
Proof.
  intros Hlen. unfold payload, admits.
  pose proof (declared_range first) as Hd.
  set (xs := firstn (Z.to_nat (declared first - 1)) rest).
  assert (Hxs : Z.of_nat (List.length xs) = declared first - 1).
  { unfold xs. rewrite length_firstn. cbn [List.length] in Hlen. lia. }
  pose proof (U64Facts.fold_shift_in_range xs
                (U64.of_byte (U8.and first Byte.x3f)) 6
                ltac:(lia) ltac:(lia) (ByteFacts.low6_range first)) as Hr.
  rewrite Hxs in Hr.
  replace (6 + 8 * (declared first - 1)) with (8 * declared first - 2) in Hr by lia.
  lia.
Qed.

(** [Len] returns at most any length that admits the value. *)
Lemma Len_le_admits (n v : Z) :
  0 <= v -> In n lengths -> admits n v ->
  exists k : Z, Len v = Ret k /\ k <= n.
Proof.
  intros Hv Hn Ha. rewrite Len_leb by exact Hv.
  unfold _maxVarInt1, _maxVarInt2, _maxVarInt4, _maxVarInt8, Max.
  unfold admits in Ha.
  destruct Hn as [<- | [<- | [<- | [<- | []]]]]; simpl in Ha;
    repeat match goal with
           | |- context [?a <=? ?b] => destruct (Z.leb_spec a b); try lia
           end;
    eexists; (split; [reflexivity | lia]).
Qed.

Lemma declared_lengths (first : byte) : In (declared first) lengths.
Proof.
  unfold lengths.
  destruct (declared_cases first) as [[_ E] | [[_ E] | [[_ E] | [_ E]]]];
    rewrite E; simpl; tauto.
Qed.

(** Bytes shifted into [a] sit below [a] as a number of [8 * length] bits. *)
Lemma fold_shift_in_Z_split (xs : list byte) : forall a : Z,
  fold_left shift_in_Z xs a =
  a * 2 ^ (8 * Z.of_nat (List.length xs)) + fold_left shift_in_Z xs 0 /\
  0 <= fold_left shift_in_Z xs 0 < 2 ^ (8 * Z.of_nat (List.length xs)).
Proof.
  induction xs as [| x xs IH]; intros a.
  - simpl. lia.
  - cbn [fold_left List.length]. rewrite Nat2Z.inj_succ.
    replace (8 * Z.succ (Z.of_nat (List.length xs)))
      with (8 * Z.of_nat (List.length xs) + 8) by lia.
    rewrite Z.pow_add_r by lia. change (2 ^ 8) with 256.
    destruct (IH (shift_in_Z a x)) as [Ea _].
    destruct (IH (shift_in_Z 0 x)) as [E0 Hr].
    rewrite Ea, E0.
    change (shift_in_Z a x) with (a * 256 + byte.unsigned x).
    change (shift_in_Z 0 x) with (0 * 256 + byte.unsigned x).
    pose proof (ByteFacts.range x) as Hx.
    assert (Hp : 0 < 2 ^ (8 * Z.of_nat (List.length xs)))
      by (apply Z.pow_pos_nonneg; lia).
    set (P := 2 ^ (8 * Z.of_nat (List.length xs))) in *.
    assert (Hm : 0 <= byte.unsigned x * P <= 255 * P)
      by (split; [apply Z.mul_nonneg_nonneg | apply Z.mul_le_mono_nonneg_r]; lia).
    split; [ring | lia].
Qed.

(** Splitting what was shifted in gives the bytes back. *)
Lemma be_bytes_fold (xs : list byte) : forall a : Z,
  be_bytes (List.length xs) (fold_left shift_in_Z xs a) = xs.
Proof.
  induction xs as [| x xs IH]; intros a; [reflexivity |].
  cbn [List.length be_bytes fold_left]. f_equal; [| apply IH].
  destruct (fold_shift_in_Z_split xs (shift_in_Z a x)) as [E Hr]. rewrite E.
  rewrite U64Facts.shr_div by lia.
  assert (Hp : 0 < 2 ^ (8 * Z.of_nat (List.length xs)))
    by (apply Z.pow_pos_nonneg; lia).
  rewrite Z.add_comm, Z.div_add by lia.
  rewrite (Z.div_small _ _ Hr), Z.add_0_l.
  apply byte.unsigned_inj. rewrite ByteFacts.unsigned_of_Z_mod.
  unfold shift_in_Z. pose proof (ByteFacts.range x) as Hx.
  rewrite Z.add_comm, Z_mod_plus_full. apply Z.mod_small. lia.
Qed.

(** A byte is its six low bits under its tag. *)
Lemma retag (first : byte) :
  (byte.unsigned (U8.shr first 6) = 0 -> U8.and first Byte.x3f = first) /\
  (byte.unsigned (U8.shr first 6) = 1 ->
   U8.or (U8.and first Byte.x3f) Byte.x40 = first) /\
  (byte.unsigned (U8.shr first 6) = 2 ->
   U8.or (U8.and first Byte.x3f) Byte.x80 = first) /\
  (byte.unsigned (U8.shr first 6) = 3 ->
   U8.or (U8.and first Byte.x3f) Byte.xc0 = first).
Proof.
  destruct first; vm_compute; repeat split; intros E;
    first [reflexivity | discriminate E].
Qed.

(** The six bits the encoder puts under the tag are the six low bits of the
    byte the value was parsed from. *)
Lemma head_bits (first : byte) (xs : list byte) :
  byte.of_Z (Z.land (U64.shr (fold_left shift_in_Z xs (U64.of_byte (U8.and first Byte.x3f)))
                             (8 * Z.of_nat (List.length xs))) 0x3F) =
  U8.and first Byte.x3f.
Proof.
  pose proof (ByteFacts.low6_range first) as Ha. unfold U64.of_byte.
  destruct (fold_shift_in_Z_split xs (byte.unsigned (U8.and first Byte.x3f)))
    as [E Hr].
  assert (Hp : 0 < 2 ^ (8 * Z.of_nat (List.length xs)))
    by (apply Z.pow_pos_nonneg; lia).
  rewrite E, U64Facts.shr_div by lia.
  rewrite Z.add_comm, Z.div_add by lia.
  rewrite (Z.div_small _ _ Hr), Z.add_0_l.
  apply byte.unsigned_inj. rewrite ByteFacts.six_bits by lia.
  apply Z.mod_small. exact Ha.
Qed.

(** Parsed bytes of minimal length are the bytes [Append] writes for the
    parsed value. *)
Lemma reencode (first : byte) (rest : list byte) :
  declared first <= Z.of_nat (List.length (first :: rest)) ->
  Len (payload first rest) = Ret (declared first) ->
  Append [] (payload first rest) =
  Ret (first :: firstn (Z.to_nat (declared first - 1)) rest).
Proof.
  intros Hlen HLen.
  pose proof (ByteFacts.low6_range first) as Ha.
  destruct (payload_admits first rest Hlen) as [Hv _].
  rewrite Len_leb in HLen by exact Hv.
  unfold payload in *.
  set (xs := firstn (Z.to_nat (declared first - 1)) rest) in *.
  assert (Hxs : List.length xs = Z.to_nat (declared first - 1)).
  { unfold xs. rewrite length_firstn. cbn [List.length] in Hlen. lia. }
  pose proof (declared_range first) as Hd.
  rewrite (ReadFacts.fold_shift_in_Z xs _ 6) in * by (try exact Ha; lia).
  pose proof (head_bits first xs) as Hh.
  pose proof (be_bytes_fold xs (U64.of_byte (U8.and first Byte.x3f))) as Hb.
  set (v := fold_left shift_in_Z xs (U64.of_byte (U8.and first Byte.x3f))) in *.
  destruct (retag first) as (R0 & R1 & R2 & R3).
  unfold Append. cbn [app].
  destruct (declared_cases first) as [[Ht Hdv] | [[Ht Hdv] | [[Ht Hdv] | [Ht Hdv]]]];
    rewrite Hdv in *;
    repeat match type of HLen with
           | context [?a <=? ?b] => destruct (a <=? b); try discriminate HLen
           end;
    f_equal.
  - destruct xs as [| ? ?]; [| discriminate Hxs].
    unfold enc1. f_equal. subst v. cbn [fold_left].
    unfold U64.of_byte. rewrite byte.of_Z_unsigned. exact (R0 Ht).
  - change (Z.to_nat (2 - 1)) with 1%nat in Hxs. rewrite Hxs in Hh, Hb.
    change (enc2 v) with
      (U8.or (byte.of_Z (Z.land (U64.shr v (8 * Z.of_nat 1)) 0x3F)) Byte.x40
         :: be_bytes 1 v).
    rewrite Hh, Hb, (R1 Ht). reflexivity.
  - change (Z.to_nat (4 - 1)) with 3%nat in Hxs. rewrite Hxs in Hh, Hb.
    change (enc4 v) with
      (U8.or (byte.of_Z (Z.land (U64.shr v (8 * Z.of_nat 3)) 0x3F)) Byte.x80
         :: be_bytes 3 v).
    rewrite Hh, Hb, (R2 Ht). reflexivity.
  - change (Z.to_nat (8 - 1)) with 7%nat in Hxs. rewrite Hxs in Hh, Hb.
    change (enc8 v) with
      (U8.or (byte.of_Z (Z.land (U64.shr v (8 * Z.of_nat 7)) 0x3F)) Byte.xc0
         :: be_bytes 7 v).
    rewrite Hh, Hb, (R3 Ht). reflexivity.
Qed.

(** [Read] on a slice that holds the declared bytes, as a computation. *)
Lemma Read_io_slice_enough (first : byte) (rest : list byte) :
  declared first <= Z.of_nat (List.length (first :: rest)) ->
  Read_io (first :: rest : sliceReader) =
  (Val (payload first rest),
   skipn (Z.to_nat (declared first - 1)) rest : sliceReader).
Proof.
  intros Hlen. rewrite Read_io_pull. unfold bind.
  change (readByte (first :: rest : sliceReader))
    with (@Val byte first, rest : sliceReader).
  cbv iota beta.
  rewrite pull_slice by (cbn [List.length] in Hlen; lia).
  unfold ret. rewrite payload_firstn. reflexivity.
Qed.

(** [Read] on a slice that opens with an encoding. *)
Lemma Read_io_encoding (v n : Z) (first : byte) (rest extra : list byte) :
  Z.of_nat (List.length (first :: rest)) = n ->
  declared first = n ->
  payload first (rest ++ extra) = v ->
  Read_io ((first :: rest) ++ extra : sliceReader) = (Val v, extra : sliceReader).
Proof.
  intros Hn Hd Hp. cbn [app].
  rewrite Read_io_slice_enough
    by (cbn [List.length] in *; rewrite length_app; lia).
  rewrite Hp. f_equal.
  rewrite skipn_app, skipn_all2 by (cbn [List.length] in Hn; lia).
  replace (Z.to_nat (declared first - 1) - List.length rest)%nat with 0%nat
    by (cbn [List.length] in Hn; lia).
  reflexivity.
Qed.

Section AnyWriter.
Context {W : Type} `{ByteWriter W}.

(** Under a log, pushing hands over a prefix of the bytes: all of them when
    it succeeds, at least one when it fails. *)
Lemma push_logged_prefix (cs : list byte) : forall (w : W) (log : list byte),
  exists (r : res unit) (w' : W) (done todo : list byte),
    push cs ((w, log) : logged W) = (r, (w', log ++ done)) /\
    cs = done ++ todo /\
    (r = Val tt /\ todo = [] \/ exists e, r = Err e /\ done <> []).
Proof.
  induction cs as [| c cs IH]; intros w log.
  - exists (Val tt), w, [], []. cbn [push]. unfold ret.
    rewrite app_nil_r. auto.
  - cbn [push]. unfold bind, writeByte.
    change (WriteByte ((w, log) : logged W) c)
      with (let '(e, w') := WriteByte w c in (e, (w', log ++ [c]))).
    destruct (WriteByte w c) as [[e |] w1].
    + exists (Err e), w1, [c], cs. repeat split.
      right. exists e. split; [reflexivity | discriminate].
    + destruct (IH w1 (log ++ [c])) as (r & w' & done & todo & E & Hcs & Hr).
      exists r, w', (c :: done), todo. rewrite E, <- app_assoc. subst cs.
      repeat split.
      destruct Hr as [[-> ->] | (e & -> & _)]; [left; auto |].
      right. exists e. split; [reflexivity | discriminate].
Qed.

End AnyWriter.

(** Pushing on a buffer appends. *)
Lemma push_buffer (cs : list byte) : forall buf : buffer,
  push cs buf = (Val tt, buf ++ cs : buffer).
Proof.
  induction cs as [| c cs IH]; intros buf.
  - cbn [push]. unfold ret. rewrite app_nil_r. reflexivity.
  - cbn [push]. unfold bind.
    change (writeByte c buf) with (@Val unit tt, buf ++ [c] : buffer).
    cbv iota beta. rewrite IH, <- app_assoc. reflexivity.
Qed.

(** Pushing on the discarding writer does nothing. *)
Lemma push_discard (cs : list byte) (w : discardByteWriter) :
  push cs w = (Val tt, w).
Proof.
  induction cs as [| c cs IH]; [reflexivity |].
  cbn [push]. unfold bind.
  change (writeByte c w) with (@Val unit tt, w).
  cbv iota beta. exact IH.
Qed.

Section AnyReader.
Context {R : Type} `{ByteReader R}.

(** Under a counter, pulling [n] bytes makes [n] calls when it succeeds and
    between one and [n] when it fails. *)
Lemma pull_counted (n : nat) : forall (r : R) (k : nat),
  exists (out : res (list byte)) (r' : R) (j : nat),
    pull n ((r, k) : counted R) = (out, (r', (k + j)%nat)) /\
    ((exists xs, out = Val xs /\ j = n) \/
     (exists e, out = Err e /\ (1 <= j <= n)%nat)).
Proof.
  induction n as [| n IH]; intros r k.
  - exists (Val []), r, 0%nat. cbn [pull]. unfold ret.
    rewrite Nat.add_0_r. split; [reflexivity |]. left. exists []. auto.
  - cbn [pull]. unfold bind, readByte.
    change (ReadByte ((r, k) : counted R))
      with (let '(x, r') := ReadByte r in (x, (r', S k))).
    destruct (ReadByte r) as [[x [e |]] r1].
    + exists (Err e), r1, 1%nat. rewrite Nat.add_1_r.
      split; [reflexivity |]. right. exists e. split; [reflexivity | lia].
    + destruct (IH r1 (S k)) as (out & r' & j & E & Hj). rewrite E.
      replace (S k + j)%nat with (k + S j)%nat by lia.
      destruct Hj as [(xs & -> & ->) | (e & -> & Hj)].
      * exists (Val (x :: xs)), r', (S n). split; [reflexivity |].
        left. exists (x :: xs). auto.
      * exists (Err e), r', (S j). split; [reflexivity |].
        right. exists e. split; [reflexivity | lia].
Qed.

End AnyReader.

End MoreFacts.

Import MoreFacts.

(** X1. What [Parse] returns, on every input: it never panics; the error is
    [io.EOF] exactly on the empty input and [io.ErrUnexpectedEOF] exactly on
    a non-empty input shorter than its first byte declares; on an error the
    value and the consumed count are 0; with no error the consumed count is
    the declared length, one of 1, 2, 4, 8, and at most the input's
    length. *)
Theorem X1_Parse_outcomes (b : list byte) :
  exists (v n : Z) (e : option error),
    Parse b = Ret (v, n, e) /\
    (e = Some EOF <-> b = []) /\
    (e = Some ErrUnexpectedEOF <->
     exists first : byte,
       nth_error b 0 = Some first /\ Z.of_nat (List.length b) < declared first) /\
    (e = None <->
     exists first : byte,
       nth_error b 0 = Some first /\ declared first <= Z.of_nat (List.length b)) /\
    (e <> None -> v = 0 /\ n = 0) /\
    (e = None ->
     In n lengths /\ n <= Z.of_nat (List.length b) /\
     exists first : byte, nth_error b 0 = Some first /\ n = declared first).
Proof.
  destruct (Parse_chart b)
    as [[-> E] | [(first & rest & -> & Hlen & E) | (first & rest & -> & Hlen & E)]].
  - exists 0, 0, (Some EOF). split; [exact E |].
    split; [tauto |].
    split; [split; [discriminate | intros (first & Hf & _); discriminate Hf] |].
    split; [split; [discriminate | intros (first & Hf & _); discriminate Hf] |].
    split; [auto | discriminate].
  - exists 0, 0, (Some ErrUnexpectedEOF). split; [exact E |].
    split; [split; discriminate |].
    split; [split; [intros _; exists first; split; [reflexivity | exact Hlen]
                   | reflexivity] |].
    split; [split; [discriminate |] |].
    { intros (x & Hx & Hle). cbn [nth_error] in Hx. injection Hx as <-. lia. }
    split; [auto | discriminate].
  - exists (payload first rest), (declared first), None. split; [exact E |].
    split; [split; discriminate |].
    split; [split; [discriminate |] |].
    { intros (x & Hx & Hlt). cbn [nth_error] in Hx. injection Hx as <-. lia. }
    split; [split; [intros _; exists first; split; [reflexivity | exact Hlen]
                   | reflexivity] |].
    split; [congruence |].
    intros _. split; [apply declared_lengths |]. split; [exact Hlen |].
    exists first. split; reflexivity.
Qed.

(** X2. [Peek] reads back what [Append] wrote, whatever follows it: for a
    value [v] up to [2^62 - 1], [Peek] on the encoding of [v] followed by
    any bytes returns [v] and no error. *)
Theorem X2_Peek_round_trip (v : Z) (extra : list byte) :
  0 <= v <= Max ->
  exists enc : list byte,
    Append [] v = Ret enc /\ Peek (enc ++ extra) = Ret (v, None).
Proof.
  intros Hv.
  destruct (Append_cases [] v Hv) as (n & enc & _ & HApp & _ & HParse & _).
  exists enc. split; [exact HApp |].
  unfold Peek. rewrite HParse. reflexivity.
Qed.

Lemma X2_Peek_round_trip_witness :
  exists enc : list byte,
    Append [] 16383 = Ret enc /\ Peek (enc ++ [Byte.xff]) = Ret (16383, None).
Proof. apply (X2_Peek_round_trip 16383 [Byte.xff]). unfold Max. lia. Defined.

(** X3. [Peek] on every input: it never panics, its value is between 0 and
    [2^62 - 1], its error is [nil], [io.EOF] or [io.ErrUnexpectedEOF],
    [io.EOF] exactly on the empty input, and the value is 0 on an error. *)
Theorem X3_Peek_outcomes (b : list byte) :
  exists (v : Z) (e : option error),
    Peek b = Ret (v, e) /\
    0 <= v <= Max /\
    (e = None \/ e = Some EOF \/ e = Some ErrUnexpectedEOF) /\
    (e = Some EOF <-> b = []) /\
    (e <> None -> v = 0).
Proof.
  unfold Peek.
  destruct (Parse_chart b)
    as [[-> E] | [(first & rest & -> & Hlen & E) | (first & rest & -> & Hlen & E)]];
    rewrite E.
  - exists 0, (Some EOF). split; [reflexivity |].
    split; [unfold Max; lia |]. split; [auto |]. split; [tauto | auto].
  - exists 0, (Some ErrUnexpectedEOF). split; [reflexivity |].
    split; [unfold Max; lia |]. split; [auto |].
    split; [split; discriminate | auto].
  - exists (payload first rest), None. split; [reflexivity |].
    split; [apply payload_range |]. split; [auto |].
    split; [split; discriminate | congruence].
Qed.

(** X4. [Len] predicts [Append]: for a value up to [2^62 - 1], [Append]
    grows the destination by exactly [Len v] bytes, and the first byte it
    adds declares that length in its two top bits. *)
Theorem X4_Append_length (dst : list byte) (v : Z) :
  0 <= v <= Max ->
  exists (n : Z) (out : list byte) (first : byte),
    Len v = Ret n /\ Append dst v = Ret out /\
    Z.of_nat (List.length out) = Z.of_nat (List.length dst) + n /\
    nth_error out (List.length dst) = Some first /\
    declared first = n.
Proof.
  intros Hv.
  destruct (encoding_of v Hv) as (n & first & rest & HLen & HApp & Hn & Hd & _).
  exists n, (dst ++ first :: rest), first.
  repeat split; try assumption.
  - apply HApp.
  - rewrite length_app. lia.
  - rewrite nth_error_app2 by lia. rewrite Nat.sub_diag. reflexivity.
Qed.

Lemma X4_Append_length_witness :
  exists (n : Z) (out : list byte) (first : byte),
    Len 1073741824 = Ret n /\ Append [Byte.x01] 1073741824 = Ret out /\
    Z.of_nat (List.length out) = Z.of_nat (List.length [Byte.x01]) + n /\
    nth_error out (List.length [Byte.x01]) = Some first /\
    declared first = n.
Proof. apply (X4_Append_length [Byte.x01] 1073741824). unfold Max. lia. Defined.

(** X5. Encodings are uniquely decodable: if the encoding of [v1] followed
    by some bytes equals the encoding of [v2] followed by some bytes, then
    [v1 = v2], the encodings are equal and so are the bytes that follow; no
    encoding is a proper prefix of another. *)
Theorem X5_prefix_free (v1 v2 : Z) (e1 e2 x1 x2 : list byte) :
  0 <= v1 <= Max -> 0 <= v2 <= Max ->
  Append [] v1 = Ret e1 -> Append [] v2 = Ret e2 ->
  e1 ++ x1 = e2 ++ x2 ->
  v1 = v2 /\ e1 = e2 /\ x1 = x2.
Proof.
  intros H1 H2 A1 A2 Heq.
  destruct (Append_cases [] v1 H1) as (n1 & c1 & _ & B1 & _ & P1 & _).
  destruct (Append_cases [] v2 H2) as (n2 & c2 & _ & B2 & _ & P2 & _).
  cbn [app] in B1, B2.
  rewrite A1 in B1. injection B1 as <-.
  rewrite A2 in B2. injection B2 as <-.
  pose proof (P1 x1) as Q1. pose proof (P2 x2) as Q2.
  rewrite Heq, Q2 in Q1. injection Q1 as <- _.
  rewrite A1 in A2. injection A2 as <-.
  repeat split. exact (app_inv_head e1 x1 x2 Heq).
Qed.

Lemma X5_prefix_free_witness :
  64 = 64 /\ [Byte.x40; Byte.x40] = [Byte.x40; Byte.x40] /\
  [Byte.x01] = [Byte.x01].
Proof.
  apply (X5_prefix_free 64 64 [Byte.x40; Byte.x40] [Byte.x40; Byte.x40]
           [Byte.x01] [Byte.x01]);
    first [unfold Max; lia | reflexivity].
Defined.

(** X6. Decoding with a cursor: for a value [v] up to [2^62 - 1], [Parse]
    on the encoding of [v] followed by any bytes returns [v] and a consumed
    count which, dropped from the front of the input, leaves exactly the
    bytes that follow. *)
Theorem X6_Parse_advance (v : Z) (extra : list byte) :
  0 <= v <= Max ->
  exists (enc : list byte) (n : Z),
    Append [] v = Ret enc /\
    Parse (enc ++ extra) = Ret (v, n, None) /\
    skipn (Z.to_nat n) (enc ++ extra) = extra.
Proof.
  intros Hv.
  destruct (Append_cases [] v Hv) as (n & enc & _ & HApp & Hn & HParse & _).
  exists enc, n. repeat split; [exact HApp | apply HParse |].
  rewrite skipn_app, skipn_all2 by lia.
  replace (Z.to_nat n - List.length enc)%nat with 0%nat by lia. reflexivity.
Qed.

Lemma X6_Parse_advance_witness :
  exists (enc : list byte) (n : Z),
    Append [] 64 = Ret enc /\
    Parse (enc ++ [Byte.x3f]) = Ret (64, n, None) /\
    skipn (Z.to_nat n) (enc ++ [Byte.x3f]) = [Byte.x3f].
Proof. apply (X6_Parse_advance 64 [Byte.x3f]). unfold Max. lia. Defined.

(** X7. Reading from a stream with more behind: for a value [v] up to
    [2^62 - 1], [Read] on a reader over the encoding of [v] followed by any
    bytes returns [v] and no error, and leaves exactly the bytes that
    follow. *)
Theorem X7_Read_advance (v : Z) (extra : list byte) :
  0 <= v <= Max ->
  exists enc : list byte,
    Append [] v = Ret enc /\
    Read (enc ++ extra : sliceReader) = (Ret (v, None), extra).
Proof.
  intros Hv.
  destruct (encoding_of v Hv) as (n & first & rest & _ & HApp & Hn & Hd & Hp & _).
  exists (first :: rest). split; [exact (HApp []) |].
  unfold Read.
  rewrite (Read_io_encoding v n first rest extra Hn Hd (Hp extra)).
  reflexivity.
Qed.

Lemma X7_Read_advance_witness :
  exists enc : list byte,
    Append [] 16384 = Ret enc /\
    Read (enc ++ [Byte.x01; Byte.x02] : sliceReader) =
    (Ret (16384, None), [Byte.x01; Byte.x02]).
Proof.
  apply (X7_Read_advance 16384 [Byte.x01; Byte.x02]). unfold Max. lia.
Defined.

(** X8. [Read] against [Parse] on the same bytes, whatever they are: where
    [Parse] returns a value with consumed count [n] and no error, [Read]
    over a reader on those bytes returns the same value and leaves the bytes
    after the first [n]; where [Parse] returns an error, [Read] returns
    [io.EOF] with value 0 and leaves nothing. *)
Theorem X8_Read_Parse_chart (b : list byte) :
  exists (v n : Z) (e : option error),
    Parse b = Ret (v, n, e) /\
    ((e = None /\
      Read (b : sliceReader) = (Ret (v, None), skipn (Z.to_nat n) b)) \/
     (e <> None /\
      Read (b : sliceReader) = (Ret (0, Some EOF), []))).
Proof.
  destruct (Parse_chart b)
    as [[-> E] | [(first & rest & -> & Hlen & E) | (first & rest & -> & Hlen & E)]].
  - exists 0, 0, (Some EOF). split; [exact E |]. right.
    split; [discriminate | reflexivity].
  - exists 0, 0, (Some ErrUnexpectedEOF). split; [exact E |]. right.
    split; [discriminate | apply Read_slice_short; exact Hlen].
  - exists (payload first rest), (declared first), None. split; [exact E |]. left.
    split; [reflexivity |].
    rewrite (Read_slice_enough first rest Hlen).
    pose proof (declared_range first) as Hd.
    replace (Z.to_nat (declared first)) with (S (Z.to_nat (declared first - 1)))
      by lia.
    reflexivity.
Qed.

(** X9. The decoder takes more than the encoder writes, never less: a value
    parsed from [n] bytes has at most [8n - 2] bits, and [Len] of it is at
    most [n]. *)
Theorem X9_Parse_Len (b : list byte) (v n : Z) :
  Parse b = Ret (v, n, None) ->
  0 <= v /\ admits n v /\ exists k : Z, Len v = Ret k /\ k <= n.
Proof.
  intros E.
  destruct (Parse_chart b)
    as [[-> E'] | [(first & rest & -> & Hlen & E') | (first & rest & -> & Hlen & E')]];
    rewrite E' in E; try discriminate E.
  injection E as <- <-.
  destruct (payload_admits first rest Hlen) as [Hv Ha].
  split; [exact Hv |]. split; [exact Ha |].
  apply Len_le_admits; [exact Hv | apply declared_lengths | exact Ha].
Qed.

Lemma X9_Parse_Len_witness :
  0 <= 1 /\ admits 2 1 /\ exists k : Z, Len 1 = Ret k /\ k <= 2.
Proof. apply (X9_Parse_Len [Byte.x40; Byte.x01] 1 2). reflexivity. Defined.

(** X10. Encoding what was parsed: if [Parse] returns the value [v] with
    consumed count [n] and no error, then [Append [] v] returns exactly the
    first [n] bytes of the input if and only if [Len v] is [n], that is, if
    and only if the input was of minimal length. *)
Theorem X10_reencode (b : list byte) (v n : Z) :
  Parse b = Ret (v, n, None) ->
  (Len v = Ret n <-> Append [] v = Ret (firstn (Z.to_nat n) b)).
Proof.
  intros E.
  destruct (Parse_chart b)
    as [[-> E'] | [(first & rest & -> & Hlen & E') | (first & rest & -> & Hlen & E')]];
    rewrite E' in E; try discriminate E.
  injection E as <- <-.
  pose proof (declared_range first) as Hd.
  replace (Z.to_nat (declared first)) with (S (Z.to_nat (declared first - 1)))
    by lia.
  cbn [firstn].
  split.
  - intros HLen. apply (reencode first rest Hlen HLen).
  - intros HApp.
    destruct (payload_admits first rest Hlen) as [Hv _].
    pose proof (payload_range first rest) as Hr.
    destruct (Append_cases [] (payload first rest) Hr)
      as (k & enc & HLen & HApp' & Hk & _).
    cbn [app] in HApp'. rewrite HApp in HApp'. injection HApp' as <-.
    rewrite HLen. f_equal. rewrite <- Hk.
    cbn [List.length]. rewrite length_firstn.
    cbn [List.length] in Hlen. lia.
Qed.

Lemma X10_reencode_witness :
  Len 16383 = Ret 2 <->
  Append [] 16383 = Ret (firstn (Z.to_nat 2) [Byte.x7f; Byte.xff; Byte.x00]).
Proof.
  apply (X10_reencode [Byte.x7f; Byte.xff; Byte.x00] 16383 2). reflexivity.
Defined.

(** X11. [Write] on any writer, failing or not: for a value up to
    [2^62 - 1], [Write] does what handing the bytes of [Append [] v] to
    [WriteByte] one by one does, stopping at the first error and returning
    it unchanged, with the writer as that call left it. *)
Theorem X11_Write_push (W : Type) (wr : ByteWriter W) (w : W) (v : Z) :
  0 <= v <= Max ->
  exists enc : list byte,
    Append [] v = Ret enc /\
    Write w v =
    match push enc w with
    | (Val _, w') => (Ret None, w')
    | (Err e, w') => (Ret (Some e), w')
    | (Pan p, w') => (Panic p, w')
    end.
Proof.
  intros Hv.
  destruct (encoding_of v Hv) as (n & first & rest & _ & HApp & _ & _ & _ & HW).
  exists (first :: rest). split; [exact (HApp []) |].
  unfold Write. rewrite HW. reflexivity.
Qed.

Lemma X11_Write_push_witness :
  exists enc : list byte,
    Append [] 16384 = Ret enc /\
    Write (2%nat : limited) 16384 =
    match push enc (2%nat : limited) with
    | (Val _, w') => (Ret None, w')
    | (Err e, w') => (Ret (Some e), w')
    | (Pan p, w') => (Panic p, w')
    end.
Proof. apply (X11_Write_push limited _ 2%nat 16384). unfold Max. lia. Defined.

(** X12. What reaches a writer: for a value up to [2^62 - 1] and any
    writer, [Write] does not panic, and the bytes handed to [WriteByte] are
    a prefix of [Append [] v], in order: all of it when [Write] returns
    [nil], and at least the first byte when it returns an error. *)
Theorem X12_Write_prefix (W : Type) (wr : ByteWriter W) (w : W) (v : Z) :
  0 <= v <= Max ->
  exists (enc done todo : list byte) (err : option error) (w' : W),
    Append [] v = Ret enc /\
    Write ((w, []) : logged W) v = (Ret err, (w', done)) /\
    enc = done ++ todo /\
    (err = None -> todo = []) /\
    (err <> None -> done <> []).
Proof.
  intros Hv.
  destruct (encoding_of v Hv) as (n & first & rest & _ & HApp & _ & _ & _ & HW).
  destruct (push_logged_prefix (first :: rest) w [])
    as (r & w' & done & todo & E & Hcs & Hr).
  cbn [app] in E.
  destruct Hr as [[-> ->] | (e & -> & Hdone)].
  - exists (first :: rest), done, [], None, w'.
    split; [exact (HApp []) |].
    unfold Write. rewrite HW, E.
    repeat split; [exact Hcs | congruence].
  - exists (first :: rest), done, todo, (Some e), w'.
    split; [exact (HApp []) |].
    unfold Write. rewrite HW, E.
    repeat split; [exact Hcs | discriminate | auto].
Qed.

Lemma X12_Write_prefix_witness :
  exists (enc done todo : list byte) (err : option error) (w' : limited),
    Append [] 16384 = Ret enc /\
    Write ((2%nat, []) : logged limited) 16384 = (Ret err, (w', done)) /\
    enc = done ++ todo /\
    (err = None -> todo = []) /\
    (err <> None -> done <> []).
Proof. apply (X12_Write_prefix limited _ 2%nat 16384). unfold Max. lia. Defined.

(** X13. [Len] is monotone: if [Len] returns on a value, it returns on every
    smaller value, and returns no more. *)
Theorem X13_Len_monotone (v1 v2 n2 : Z) :
  0 <= v1 <= v2 ->
  Len v2 = Ret n2 ->
  exists n1 : Z, Len v1 = Ret n1 /\ n1 <= n2.
Proof.
  intros Hv E. rewrite Len_leb in * by lia.
  unfold _maxVarInt1, _maxVarInt2, _maxVarInt4, _maxVarInt8, Max in *.
  repeat match type of E with
         | context [?a <=? ?b] => destruct (Z.leb_spec a b)
         end;
    try discriminate E; injection E as <-;
    repeat match goal with
           | |- context [?a <=? ?b] => destruct (Z.leb_spec a b); try lia
           end;
    eexists; (split; [reflexivity | lia]).
Qed.

Lemma X13_Len_monotone_witness :
  exists n1 : Z, Len 63 = Ret n1 /\ n1 <= 4.
Proof. apply (X13_Len_monotone 63 16384 4); [lia | reflexivity]. Defined.

(** Values in range written one after the other make one byte string, the
    same through [Append] and through [Write] on a buffer, which [Read]
    takes apart again. *)
Lemma stream_of (vs : list Z) :
  Forall (fun v => 0 <= v <= Max) vs ->
  exists bs : list byte,
    (forall dst, AppendAll dst vs = Ret (dst ++ bs)) /\
    (forall buf : buffer, WriteAll vs buf = (Val tt, buf ++ bs : buffer)) /\
    (forall extra,
        ReadAll (List.length vs) (bs ++ extra : sliceReader) =
        (Val vs, extra : sliceReader)).
Proof.
  induction 1 as [| v vs Hv _ IH].
  - exists []. repeat split; intros; cbn; rewrite ?app_nil_r; reflexivity.
  - destruct IH as (bs & HA & HW & HR).
    destruct (encoding_of v Hv)
      as (n & first & rest & _ & HApp & Hn & Hd & Hp & HWv).
    exists ((first :: rest) ++ bs). repeat split.
    + intros dst. cbn [AppendAll]. rewrite HApp, HA, <- app_assoc. reflexivity.
    + intros buf. cbn [WriteAll]. unfold bind.
      rewrite HWv, push_buffer, HW, <- app_assoc. reflexivity.
    + intros extra. cbn [ReadAll List.length]. unfold bind.
      rewrite <- app_assoc.
      rewrite (Read_io_encoding v n first rest (bs ++ extra) Hn Hd
                 (Hp (bs ++ extra))).
      rewrite HR. reflexivity.
Qed.

(** X14. With eight bytes at hand [Read] cannot fail: on a reader over at
    least eight bytes, whatever they are, [Read] returns a value between 0
    and [2^62 - 1] and no error, and takes between one and eight bytes. *)
Theorem X14_Read_eight (b : list byte) :
  (8 <= List.length b)%nat ->
  exists (v : Z) (n : nat),
    Read (b : sliceReader) = (Ret (v, None), skipn n b) /\
    (1 <= n <= 8)%nat /\ 0 <= v <= Max.
Proof.
  intros Hlen. destruct b as [| first rest]; [simpl in Hlen; lia |].
  pose proof (declared_range first) as Hd.
  exists (payload first rest), (S (Z.to_nat (declared first - 1))).
  split; [| split; [lia | apply payload_range]].
  cbn [skipn]. apply Read_slice_enough. lia.
Qed.

Lemma X14_Read_eight_witness :
  exists (v : Z) (n : nat),
    Read ([Byte.xff; Byte.x00; Byte.x00; Byte.x00;
           Byte.x00; Byte.x00; Byte.x00; Byte.x01; Byte.x02] : sliceReader) =
    (Ret (v, None),
     skipn n [Byte.xff; Byte.x00; Byte.x00; Byte.x00;
              Byte.x00; Byte.x00; Byte.x00; Byte.x01; Byte.x02]) /\
    (1 <= n <= 8)%nat /\ 0 <= v <= Max.
Proof.
  apply (X14_Read_eight [Byte.xff; Byte.x00; Byte.x00; Byte.x00;
                         Byte.x00; Byte.x00; Byte.x00; Byte.x01; Byte.x02]).
  simpl. lia.
Defined.

(** X15. [Write] on the benchmark's [discardByteWriter]: it returns [nil]
    for every value up to [2^62 - 1] and panics with the length error for
    every larger one. *)
Theorem X15_Write_discard (w : discardByteWriter) (v : Z) :
  0 <= v < 2 ^ 64 ->
  (v <= Max -> Write w v = (Ret None, w)) /\
  (Max < v -> Write w v = (Panic (varintLengthError v), w)).
Proof.
  intros Hv. split; intros Hmax.
  - destruct (encoding_of v ltac:(lia)) as (n & first & rest & _ & _ & _ & _ & _ & HW).
    unfold Write. rewrite HW, push_discard. reflexivity.
  - unfold Write. rewrite Write_io_push.
    unfold _maxVarInt1, _maxVarInt2, _maxVarInt4, _maxVarInt8, Max in *.
    repeat match goal with
           | |- context [?a <=? ?b] => destruct (Z.leb_spec a b); [lia |]
           end.
    reflexivity.
Qed.

Lemma X15_Write_discard_witness :
  Write discard 4611686018427387903 = (Ret None, discard).
Proof.
  apply (proj1 (X15_Write_discard discard 4611686018427387903 ltac:(lia))).
  unfold Max. lia.
Defined.

(** X16. [Write] on a buffer is [Append]: for a value up to [2^62 - 1],
    [Write] on a buffer that accepts every byte returns [nil] and leaves in
    the buffer what [Append] returns on the buffer's contents. *)
Theorem X16_Write_buffer (buf : list byte) (v : Z) :
  0 <= v <= Max ->
  exists out : list byte,
    Append buf v = Ret out /\ Write (buf : buffer) v = (Ret None, out).
Proof.
  intros Hv.
  destruct (encoding_of v Hv) as (n & first & rest & _ & HApp & _ & _ & _ & HW).
  exists (buf ++ first :: rest). split; [apply HApp |].
  unfold Write. rewrite HW, push_buffer. reflexivity.
Qed.

Lemma X16_Write_buffer_witness :
  exists out : list byte,
    Append [Byte.x01] 64 = Ret out /\
    Write ([Byte.x01] : buffer) 64 = (Ret None, out).
Proof. apply (X16_Write_buffer [Byte.x01] 64). unfold Max. lia. Defined.

(** X17. A stream of values: appending values up to [2^62 - 1] one after
    the other never panics, and as many calls of [Read] on a reader over the
    bytes appended, followed by any bytes, return the values in order and
    leave the bytes that follow. *)
Theorem X17_stream_round_trip (vs : list Z) (extra : list byte) :
  Forall (fun v => 0 <= v <= Max) vs ->
  exists bs : list byte,
    AppendAll [] vs = Ret bs /\
    ReadAll (List.length vs) (bs ++ extra : sliceReader) = (Val vs, extra).
Proof.
  intros Hvs. destruct (stream_of vs Hvs) as (bs & HA & _ & HR).
  exists bs. split; [exact (HA []) | apply HR].
Qed.

Lemma X17_stream_round_trip_witness :
  exists bs : list byte,
    AppendAll [] [0; 64; 16384; 1073741824] = Ret bs /\
    ReadAll (List.length [0; 64; 16384; 1073741824])
            (bs ++ [Byte.xff] : sliceReader) =
    (Val [0; 64; 16384; 1073741824], [Byte.xff]).
Proof.
  apply (X17_stream_round_trip [0; 64; 16384; 1073741824] [Byte.xff]).
  repeat constructor; unfold Max; lia.
Defined.

(** X18. Writing a stream is appending it: values up to [2^62 - 1] written
    one after the other with [Write] on a buffer leave the buffer's contents
    followed by the bytes that appending them one after the other to an
    empty buffer gives. *)
Theorem X18_WriteAll_AppendAll (vs : list Z) (buf : list byte) :
  Forall (fun v => 0 <= v <= Max) vs ->
  exists bs : list byte,
    AppendAll [] vs = Ret bs /\
    AppendAll buf vs = Ret (buf ++ bs) /\
    WriteAll vs (buf : buffer) = (Val tt, buf ++ bs).
Proof.
  intros Hvs. destruct (stream_of vs Hvs) as (bs & HA & HW & _).
  exists bs. repeat split; [exact (HA []) | apply HA | apply HW].
Qed.

Lemma X18_WriteAll_AppendAll_witness :
  exists bs : list byte,
    AppendAll [] [63; 16383] = Ret bs /\
    AppendAll [Byte.x00] [63; 16383] = Ret ([Byte.x00] ++ bs) /\
    WriteAll [63; 16383] ([Byte.x00] : buffer) = (Val tt, [Byte.x00] ++ bs).
Proof.
  apply (X18_WriteAll_AppendAll [63; 16383] [Byte.x00]).
  repeat constructor; unfold Max; lia.
Defined.

(** X19. [Read] never reads ahead: on any reader it calls [ReadByte]
    between one and eight times; when the first call gives a byte it calls
    [ReadByte] no more often than that byte declares, and exactly that often
    when it returns no error. *)
Theorem X19_Read_calls (R : Type) (rd : ByteReader R) (r : R) :
  exists (out : exec (Z * option error)) (r' : R) (j : nat),
    Read ((r, 0%nat) : counted R) = (out, (r', j)) /\
    (1 <= j <= 8)%nat /\
    (forall (b0 : byte) (r0 : R),
        ReadByte r = ((b0, None), r0) -> Z.of_nat j <= declared b0) /\
    (forall v : Z,
        out = Ret (v, None) ->
        exists (b0 : byte) (r0 : R),
          ReadByte r = ((b0, None), r0) /\ Z.of_nat j = declared b0).
Proof.
  unfold Read. rewrite Read_io_pull. unfold bind, readByte.
  change (ReadByte ((r, 0%nat) : counted R))
    with (let '(x, r') := ReadByte r in (x, (r', 1%nat))).
  destruct (ReadByte r) as [[b0 [e |]] r0].
  - exists (Ret (0, Some e)), r0, 1%nat. split; [reflexivity |].
    split; [lia |]. split; [intros ? ? E; discriminate E |].
    intros v E. discriminate E.
  - pose proof (declared_range b0) as Hd.
    destruct (pull_counted (Z.to_nat (declared b0 - 1)) r0 1)
      as (out & r' & j & E & Hj).
    rewrite E.
    destruct Hj as [(xs & -> & ->) | (e & -> & Hj)].
    + exists (Ret (payload b0 xs, None)), r', (1 + Z.to_nat (declared b0 - 1))%nat.
      split; [reflexivity |]. split; [lia |]. split.
      * intros b r1 Eb. injection Eb as <- <-. lia.
      * intros v _. exists b0, r0. split; [reflexivity | lia].
    + exists (Ret (0, Some e)), r', (1 + j)%nat.
      split; [reflexivity |]. split; [lia |]. split.
      * intros b r1 Eb. injection Eb as <- <-. lia.
      * intros v Ev. discriminate Ev.
Qed.

(** X20. [Read] on any reader decodes as [Parse] does: when the first
    [ReadByte] gives a byte and the calls for the bytes it declares all
    succeed, [Read] returns, with no error, the value that [Parse] returns
    on the bytes read, whose consumed count is the number of bytes read. *)
Theorem X20_Read_as_Parse (R : Type) (rd : ByteReader R) (r r0 r1 : R)
    (b0 : byte) (rest : list byte) :
  ReadByte r = ((b0, None), r0) ->
  pull (Z.to_nat (declared b0 - 1)) r0 = (Val rest, r1) ->
  exists v : Z,
    Read r = (Ret (v, None), r1) /\
    Parse (b0 :: rest) = Ret (v, Z.of_nat (List.length (b0 :: rest)), None).
Proof.
  intros E0 E1.
  assert (Hlen : List.length rest = Z.to_nat (declared b0 - 1)).
  { destruct (pull_cases (Z.to_nat (declared b0 - 1)) r0)
      as [(xs & r' & E & Hxs) | (e & r' & E)]; rewrite E in E1.
    - injection E1 as <- _. exact Hxs.
    - discriminate E1. }
  pose proof (declared_range b0) as Hd.
  exists (payload b0 rest). split.
  - unfold Read. rewrite Read_io_pull. unfold bind, readByte.
    rewrite E0, E1. reflexivity.
  - rewrite Parse_enough by (cbn [List.length]; lia).
    cbn [List.length]. do 2 f_equal. f_equal. lia.
Qed.

Lemma X20_Read_as_Parse_witness :
  exists v : Z,
    Read ([Byte.x40; Byte.x01; Byte.x02] : sliceReader) =
    (Ret (v, None), [Byte.x02]) /\
    Parse [Byte.x40; Byte.x01] =
    Ret (v, Z.of_nat (List.length [Byte.x40; Byte.x01]), None).
Proof.
  apply (X20_Read_as_Parse sliceReader _
           [Byte.x40; Byte.x01; Byte.x02] [Byte.x01; Byte.x02] [Byte.x02]
           Byte.x40 [Byte.x01]); reflexivity.
Defined.

Module OrderFacts.

(** Among byte strings of one length, the smaller number is the smaller
    string. *)
Lemma lex_lt_of_value (xs : list byte) : forall ys : list byte,
  List.length xs = List.length ys ->
  fold_left shift_in_Z xs 0 < fold_left shift_in_Z ys 0 ->
  lex_lt xs ys.
Proof.
  induction xs as [| x xs IH]; intros [| y ys] Hlen Hlt;
    try discriminate Hlen.
  - simpl in Hlt. lia.
  - cbn [List.length] in Hlen. injection Hlen as Hlen.
    cbn [fold_left lex_lt] in *.
    destruct (fold_shift_in_Z_split xs (shift_in_Z 0 x)) as [Ex Hx].
    destruct (fold_shift_in_Z_split ys (shift_in_Z 0 y)) as [Ey Hy].
    rewrite Ex, Ey in Hlt. rewrite <- Hlen in *.
    change (shift_in_Z 0 x) with (0 * 256 + byte.unsigned x) in Hlt.
    change (shift_in_Z 0 y) with (0 * 256 + byte.unsigned y) in Hlt.
    assert (Hp : 0 < 2 ^ (8 * Z.of_nat (List.length xs)))
      by (apply Z.pow_pos_nonneg; lia).
    destruct (Z.lt_trichotomy (byte.unsigned x) (byte.unsigned y))
      as [Hxy | [Hxy | Hxy]].
    + left. exact Hxy.
    + right. apply byte.unsigned_inj in Hxy. subst y.
      split; [reflexivity |]. apply IH; [exact Hlen | lia].
    + exfalso.
      assert ((byte.unsigned y + 1) * 2 ^ (8 * Z.of_nat (List.length xs))
              <= byte.unsigned x * 2 ^ (8 * Z.of_nat (List.length xs)))
        by (apply Z.mul_le_mono_nonneg_r; lia).
      lia.
Qed.

(** The number a whole encoding spells is the payload under the tag. *)
Lemma value_of_bytes (first : byte) (rest : list byte) :
  Z.of_nat (List.length (first :: rest)) = declared first ->
  fold_left shift_in_Z (first :: rest) 0 =
  byte.unsigned (U8.shr first 6) * 64 * 2 ^ (8 * Z.of_nat (List.length rest))
  + payload first rest.
Proof.
  intros Hlen. unfold payload. cbn [List.length] in Hlen.
  rewrite firstn_all2 by lia.
  pose proof (declared_range first) as Hd.
  rewrite (ReadFacts.fold_shift_in_Z rest _ 6)
    by (try apply ByteFacts.low6_range; lia).
  cbn [fold_left].
  destruct (fold_shift_in_Z_split rest (shift_in_Z 0 first)) as [E1 _].
  destruct (fold_shift_in_Z_split rest (U64.of_byte (U8.and first Byte.x3f)))
    as [E2 _].
  rewrite E1, E2. unfold shift_in_Z, U64.of_byte.
  rewrite ByteFacts.tag_div, ByteFacts.low6_mod.
  pose proof (Z.div_mod (byte.unsigned first) 64 ltac:(lia)) as Hdm.
  rewrite Hdm at 1. ring.
Qed.

(** A smaller declared length is a smaller first byte; the same declared
    length is the same tag. *)
Lemma declared_lt (f1 f2 : byte) :
  declared f1 < declared f2 -> byte.unsigned f1 < byte.unsigned f2.
Proof.
  intros Hlt.
  assert (Ht : byte.unsigned (U8.shr f1 6) < byte.unsigned (U8.shr f2 6)).
  { destruct (declared_cases f1) as [[T1 D1] | [[T1 D1] | [[T1 D1] | [T1 D1]]]];
    destruct (declared_cases f2) as [[T2 D2] | [[T2 D2] | [[T2 D2] | [T2 D2]]]];
    lia. }
  rewrite !ByteFacts.tag_div in Ht.
  pose proof (Z.div_mod (byte.unsigned f1) 64 ltac:(lia)).
  pose proof (Z.div_mod (byte.unsigned f2) 64 ltac:(lia)).
  pose proof (Z.mod_pos_bound (byte.unsigned f1) 64 ltac:(lia)).
  pose proof (Z.mod_pos_bound (byte.unsigned f2) 64 ltac:(lia)).
  lia.
Qed.

Lemma declared_eq (f1 f2 : byte) :
  declared f1 = declared f2 ->
  byte.unsigned (U8.shr f1 6) = byte.unsigned (U8.shr f2 6).
Proof.
  intros Heq.
  destruct (declared_cases f1) as [[T1 D1] | [[T1 D1] | [[T1 D1] | [T1 D1]]]];
  destruct (declared_cases f2) as [[T2 D2] | [[T2 D2] | [[T2 D2] | [T2 D2]]]];
  lia.
Qed.

Lemma Len_le (v1 v2 n1 n2 : Z) :
  0 <= v1 <= v2 -> Len v1 = Ret n1 -> Len v2 = Ret n2 -> n1 <= n2.
Proof.
  intros Hv E1 E2. rewrite Len_leb in * by lia.
  unfold _maxVarInt1, _maxVarInt2, _maxVarInt4, _maxVarInt8, Max in *.
  repeat match type of E1 with
         | context [?a <=? ?b] => destruct (Z.leb_spec a b)
         end;
    try discriminate E1; injection E1 as <-;
    repeat match type of E2 with
           | context [?a <=? ?b] => destruct (Z.leb_spec a b); try lia
           end;
    try discriminate E2; injection E2 as <-; lia.
Qed.

End OrderFacts.

(** X21. The encoding keeps the order: of two values up to [2^62 - 1], the
    smaller has the encoding that is smaller in the lexicographic order of
    byte strings. *)
Theorem X21_order_preserving (v1 v2 : Z) (e1 e2 : list byte) :
  0 <= v1 -> v1 < v2 -> v2 <= Max ->
  Append [] v1 = Ret e1 -> Append [] v2 = Ret e2 ->
  lex_lt e1 e2.
Proof.
  intros H0 H12 Hmax A1 A2.
  destruct (encoding_of v1 ltac:(lia))
    as (n1 & f1 & r1 & L1 & B1 & N1 & D1 & P1 & _).
  destruct (encoding_of v2 ltac:(lia))
    as (n2 & f2 & r2 & L2 & B2 & N2 & D2 & P2 & _).
  pose proof (B1 []) as C1. pose proof (B2 []) as C2. cbn [app] in C1, C2.
  rewrite A1 in C1. injection C1 as ->.
  rewrite A2 in C2. injection C2 as ->.
  specialize (P1 []). specialize (P2 []). rewrite app_nil_r in P1, P2.
  pose proof (OrderFacts.Len_le v1 v2 n1 n2 ltac:(lia) L1 L2) as Hle.
  destruct (Z_lt_le_dec n1 n2) as [Hlt | Hge];
    [| assert (Heq : n1 = n2) by lia].
  - cbn [lex_lt]. left. apply OrderFacts.declared_lt. lia.
  - rewrite <- Heq in *. apply OrderFacts.lex_lt_of_value; [lia |].
    rewrite !OrderFacts.value_of_bytes by lia.
    rewrite (OrderFacts.declared_eq f1 f2) by lia.
    cbn [List.length] in N1, N2.
    replace (List.length r2) with (List.length r1) by lia.
    lia.
Qed.

Lemma X21_order_preserving_witness :
  lex_lt [Byte.x3f] [Byte.x40; Byte.x40].
Proof.
  apply (X21_order_preserving 63 64 [Byte.x3f] [Byte.x40; Byte.x40]);
    first [unfold Max; lia | reflexivity].
Defined.
